(** * hexi: a shallow embedding of the lexer, parser and tree-walking
    evaluator of the hexi scripting language (src/lexer.rs, src/parser.rs,
    src/interpreter.rs), and the properties of its specification.

    Modelling choices.
    - [f64] is the kernel's IEEE-754 binary64 type [float]; Rust's [%] on
      [f64], [f64]'s [Display] and [str::parse::<f64>] are section
      variables ([frem], [show_f64], [parse_f64]): the statements hold for
      any implementation of them.
    - [usize] is [N] below [2^64]; [+= 1] on a [usize] wraps (release
      build semantics; a debug build panics there instead).
    - A Rust [String] is its list of UTF-8 bytes ([string]); [s.len()] is
      its byte length.
    - A [HashMap<CKey, Value>] is an association list without duplicate
      keys, updated in place by [insert]; the [HashMap<String, _>] of
      variables and natives is a [gmap], the [HashSet] of loaded modules
      a [gset].
    - Native functions are pure functions on values (their I/O is not
      modelled).
    - The lexer works on the bytes of the source with the ASCII character
      classes; the real lexer uses Unicode classes on [char]s and counts
      its position in [char]s while it slices bytes, so the two agree on
      ASCII input only, and the statements about the lexer are stated for
      ASCII input. *)

From Stdlib Require Import Floats Ascii String.
From stdpp Require Import base gmap strings list pretty.

Local Open Scope string_scope.
#[local] Set Warnings "-register-all".


(* ------------------------------------------------------------------ *)
(** ** Machine integers and float conversions *)

Definition usize_modulus : N := 2 ^ 64.
Definition usize_max : N := usize_modulus - 1.

(** [a + 1] on a [usize], wrapping. *)
Definition usize_succ (a : N) : N := N.modulo (a + 1) usize_modulus.

(** [n as usize]: truncation toward zero, saturating at both ends, NaN to 0. *)
Definition f64_as_usize (f : float) : N :=
  match Prim2SF f with
  | S754_finite false m e =>
      let v := if (0 <=? e)%Z then Z.shiftl (Zpos m) e
               else Z.shiftr (Zpos m) (- e) in
      N.min (Z.to_N v) usize_max
  | S754_infinity false => usize_max
  | _ => 0%N
  end.

(** [n as f64] for a [usize] [n]: round to nearest, ties to even. *)
Definition usize_as_f64 (n : N) : float :=
  SF2Prim (binary_normalize FloatOps.prec FloatOps.emax (Z.of_N n) 0 false).

(** The double quote character, for [{:?}] formatting of strings. *)
Definition dq : string := String (Ascii.ascii_of_nat 34) EmptyString.

(* ------------------------------------------------------------------ *)
(** ** Results *)

Inductive result (A : Type) : Type :=
| Ok (a : A)
| Err (e : string).
Arguments Ok {A} a.
Arguments Err {A} e.

(* ------------------------------------------------------------------ *)
(** ** Values (interpreter.rs: [Value], [CValue], [CKey]) *)

Inductive CKey : Type :=
| Index (i : N)
| KString (s : string)
| KNumber (s : string).

Definition CKey_eqb (a b : CKey) : bool :=
  match a, b with
  | Index i, Index j => N.eqb i j
  | KString s, KString t => String.eqb s t
  | KNumber s, KNumber t => String.eqb s t
  | _, _ => false
  end.

Inductive Value : Type :=
| VNumber (n : float)
| VString (s : string)
| VBool (b : bool)
| VCollection (c : CValue)
| VNil
with CValue : Type :=
| mkCValue (entries : list (CKey * Value)) (size : N).

Definition entries (c : CValue) : list (CKey * Value) :=
  match c with mkCValue e _ => e end.
Definition size (c : CValue) : N :=
  match c with mkCValue _ s => s end.

(** [HashMap::get], [HashMap::insert] and [HashMap::remove] on the
    entries. *)
Fixpoint entries_get (k : CKey) (l : list (CKey * Value)) : option Value :=
  match l with
  | [] => None
  | (k', v) :: t => if CKey_eqb k k' then Some v else entries_get k t
  end.

Fixpoint entries_insert (k : CKey) (v : Value) (l : list (CKey * Value))
  : list (CKey * Value) :=
  match l with
  | [] => [(k, v)]
  | (k', v') :: t =>
      if CKey_eqb k k' then (k, v) :: t else (k', v') :: entries_insert k v t
  end.

Fixpoint entries_remove (k : CKey) (l : list (CKey * Value))
  : option Value * list (CKey * Value) :=
  match l with
  | [] => (None, [])
  | (k', v') :: t =>
      if CKey_eqb k k' then (Some v', t)
      else let (r, t') := entries_remove k t in (r, (k', v') :: t')
  end.

Module CV.

Definition new : CValue := mkCValue [] 0.

Definition get (c : CValue) (key : CKey) : option Value :=
  entries_get key (entries c).

Definition insert (c : CValue) (key : CKey) (value : Value) : CValue :=
  let size' :=
    match key with
    | Index i => if (size c <=? i)%N then usize_succ i else size c
    | _ => size c
    end in
  mkCValue (entries_insert key value (entries c)) size'.

Definition push (c : CValue) (value : Value) : CValue :=
  mkCValue (entries_insert (Index (size c)) value (entries c))
           (usize_succ (size c)).

Definition pop (c : CValue) : CValue * option Value :=
  if (size c =? 0)%N then (c, None)
  else
    let s := (size c - 1)%N in
    let (r, es) := entries_remove (Index s) (entries c) in
    (mkCValue es s, r).

Definition is_index (k : CKey) : bool :=
  match k with Index _ => true | _ => false end.

Definition is_array_like (c : CValue) : bool :=
  (0 <? size c)%N || forallb (fun kv => is_index (fst kv)) (entries c).

Definition len (c : CValue) : N :=
  if is_array_like c then size c else N.of_nat (length (entries c)).

Definition get_by_index (c : CValue) (index : N) : option Value :=
  get c (Index index).

Definition get_by_string (c : CValue) (key : string) : option Value :=
  get c (KString key).

End CV.

Definition type_name (v : Value) : string :=
  match v with
  | VNumber _ => "number"
  | VString _ => "string"
  | VBool _ => "bool"
  | VCollection _ => "collection"
  | VNil => "nil"
  end.

(** [Value::is_truthy] *)
Definition is_truthy (v : Value) : bool :=
  match v with
  | VBool false | VNil => false
  | VCollection c => match entries c with [] => false | _ => true end
  | _ => true
  end.

(** [Method::call_method] for [Value]: the receiver is taken by [&mut]; the
    function returns the receiver after the call together with the result. *)
Definition call_method (self : Value) (method : string) (args : list Value)
  : Value * result Value :=
  match self with
  | VCollection c =>
      if String.eqb method "push" then
        match args with
        | [a] => (VCollection (CV.push c a), Ok VNil)
        | _ => (self, Err ("push method on array expects 1 argument, got "
                             +:+ pretty (length args)))
        end
      else if String.eqb method "pop" then
        match args with
        | [] => let (c', r) := CV.pop c in
                (VCollection c', Ok (match r with Some v => v | None => VNil end))
        | _ => (self, Err ("pop method on array expects no argument, got "
                             +:+ pretty (length args)))
        end
      else if String.eqb method "size" then
        match args with
        | [] => (self, Ok (VNumber (usize_as_f64 (CV.len c))))
        | _ => (self, Err ("size method on array expects no argument, got "
                             +:+ pretty (length args)))
        end
      else if String.eqb method "get" then
        match args with
        | [a] =>
            match a with
            | VNumber n =>
                (self, Ok (match CV.get c (Index (f64_as_usize n)) with
                           | Some v => v | None => VNil end))
            | VString s =>
                (self, Ok (match CV.get c (KString s) with
                           | Some v => v | None => VNil end))
            | _ => (self, Err "collection key must be a number or string")
            end
        | _ => (self, Err ("get method expects 1 argument, got "
                             +:+ pretty (length args)))
        end
      else if String.eqb method "insert" then
        match args with
        | [a; v] =>
            match a with
            | VNumber n =>
                let idx := f64_as_usize n in
                if CV.is_array_like c && (size c <? idx)%N then
                  (self, Err ("index " +:+ pretty idx +:+ " is out of bounds"))
                else (VCollection (CV.insert c (Index idx) v), Ok VNil)
            | VString s => (VCollection (CV.insert c (KString s) v), Ok VNil)
            | _ => (self, Err "insert key must be a number or string")
            end
        | _ => (self, Err ("insert method expects 2 arguments, got "
                             +:+ pretty (length args)))
        end
      else (self, Err ("unknown method '" +:+ method +:+ "' for array."))
  | VString s =>
      if String.eqb method "len" then
        match args with
        | [] => (self, Ok (VNumber (usize_as_f64 (N.of_nat (String.length s)))))
        | _ => (self, Err ("len method on string expects no arguments, got "
                             +:+ pretty (length args)))
        end
      else (self, Err ("unknown method '" +:+ method +:+ "' for string."))
  | _ => (self, Err ("cannot call method '" +:+ method +:+ "' on "
                       +:+ dq +:+ type_name self +:+ dq))
  end.

(** Derived [PartialEq] for [Value]: [f64] compares with IEEE equality,
    [HashMap]s are equal when they have the same length and every key of
    the first maps to an equal value in the second. *)
Fixpoint value_eqb (a b : Value) : bool :=
  match a, b with
  | VNumber x, VNumber y => PrimFloat.eqb x y
  | VString s, VString t => String.eqb s t
  | VBool x, VBool y => Bool.eqb x y
  | VCollection (mkCValue es s), VCollection (mkCValue fs t) =>
      Nat.eqb (length es) (length fs)
      && (fix all (l : list (CKey * Value)) : bool :=
            match l with
            | [] => true
            | (k, v) :: l' =>
                match entries_get k fs with
                | Some w => value_eqb v w
                | None => false
                end && all l'
            end) es
      && N.eqb s t
  | VNil, VNil => true
  | _, _ => false
  end.

Definition bool_cmp (a b : bool) : comparison :=
  match a, b with
  | false, true => Lt
  | true, false => Gt
  | _, _ => Eq
  end.

(** [impl PartialOrd for Value]. *)
Definition partial_cmp (a b : Value) : option comparison :=
  match a, b with
  | VNumber x, VNumber y =>
      match PrimFloat.compare x y with
      | FEq => Some Eq
      | FLt => Some Lt
      | FGt => Some Gt
      | FNotComparable => None
      end
  | VString s, VString t => Some (String.compare s t)
  | VBool x, VBool y => Some (bool_cmp x y)
  | _, _ => None
  end.

Definition value_lt (a b : Value) : bool :=
  match partial_cmp a b with Some Lt => true | _ => false end.
Definition value_gt (a b : Value) : bool :=
  match partial_cmp a b with Some Gt => true | _ => false end.
Definition value_le (a b : Value) : bool :=
  match partial_cmp a b with Some Lt | Some Eq => true | _ => false end.
Definition value_ge (a b : Value) : bool :=
  match partial_cmp a b with Some Gt | Some Eq => true | _ => false end.

(* ------------------------------------------------------------------ *)
(** ** Tokens (lexer.rs: [TokenType], [Token]) *)

(** The constructors of lexer.rs's [TokenType], followed by the four that
    parser.rs matches on ([LBracket], [RBracket], [Dot], [Include]) and
    that lexer.rs's enum does not declare. *)
Inductive TokenType : Type :=
| Ident | TNumber | TString | LParen | RParen | Comma
| DblEquals | Lt | Gt | Gte | Lte | Neq
| Equals | Semi | Val | DblColon | LBrace | RBrace | Colon
| Add | Sub | Mul | Div | Mod
| TIf | TElse | Eof
| LBracket | RBracket | Dot | TInclude.

Definition TokenType_eqb (a b : TokenType) : bool :=
  match a, b with
  | Ident, Ident | TNumber, TNumber | TString, TString
  | LParen, LParen | RParen, RParen | Comma, Comma
  | DblEquals, DblEquals | Lt, Lt | Gt, Gt | Gte, Gte | Lte, Lte
  | Neq, Neq | Equals, Equals | Semi, Semi | Val, Val
  | DblColon, DblColon | LBrace, LBrace | RBrace, RBrace | Colon, Colon
  | Add, Add | Sub, Sub | Mul, Mul | Div, Div | Mod, Mod
  | TIf, TIf | TElse, TElse | Eof, Eof
  | LBracket, LBracket | RBracket, RBracket | Dot, Dot
  | TInclude, TInclude => true
  | _, _ => false
  end.

(** [{:?}] of a [TokenType]. *)
Definition TokenType_debug (t : TokenType) : string :=
  match t with
  | Ident => "Ident" | TNumber => "Number" | TString => "String"
  | LParen => "LParen" | RParen => "RParen" | Comma => "Comma"
  | DblEquals => "DblEquals" | Lt => "Lt" | Gt => "Gt" | Gte => "Gte"
  | Lte => "Lte" | Neq => "Neq" | Equals => "Equals" | Semi => "Semi"
  | Val => "Val" | DblColon => "DblColon" | LBrace => "LBrace"
  | RBrace => "RBrace" | Colon => "Colon" | Add => "Add" | Sub => "Sub"
  | Mul => "Mul" | Div => "Div" | Mod => "Mod" | TIf => "If"
  | TElse => "Else" | Eof => "Eof" | LBracket => "LBracket"
  | RBracket => "RBracket" | Dot => "Dot" | TInclude => "Include"
  end.

Record Token : Type := make_token { token_type : TokenType; lexeme : string }.

(* ------------------------------------------------------------------ *)
(** ** Syntax trees (ast.rs) *)

Inductive Expr : Type :=
| Identifier (name : string)
| Number (n : float)
| EString (s : string)
| Call (module : option string) (name : string) (args : list Expr)
| VarDecl (name : string) (value : Expr)
| Assignment (name : string) (assignee : Expr)
| BinaryOp (left right : Expr) (op : TokenType)
| UnaryOp (operand : Expr) (op : TokenType)
| Block (exprs : list Expr)
| If (cond : Expr) (block : list Expr) (else_block : option (list Expr))
| Collection (entries : list CEntry)
| IndexAccess (object index : Expr)
| MethodCall (object : Expr) (method : string) (args : list Expr)
| Include (module : string)
| FieldAccess (object : Expr) (field : string)
with CEntry : Type :=
| Indexed (e : Expr)
| Keyed (k : string) (e : Expr)
| NumKeyed (n : float) (e : Expr).

(* ------------------------------------------------------------------ *)
(** ** The interpreter state and its monad *)

Definition Native : Type := list Value -> result Value.

(** stdlib/mod.rs: [Module] *)
Record NativeModule : Type :=
  mkModule { mod_name : string; funcs : list (string * Native) }.

Record Interpreter : Type := mkInterpreter {
  natives : gmap string Native;
  vars : gmap string Value;
  loaded_modules : gset string
}.

Definition set_vars (st : Interpreter) (vs : gmap string Value) : Interpreter :=
  mkInterpreter (natives st) vs (loaded_modules st).

(** A computation on [&mut self] returning [Result]: the state is kept
    on both paths, as an early [?] return does not undo earlier writes. *)
Definition M (A : Type) : Type := Interpreter -> Interpreter * result A.

Definition ret {A} (a : A) : M A := fun st => (st, Ok a).
Definition fail {A} (e : string) : M A := fun st => (st, Err e).
Definition bind {A B} (m : M A) (k : A -> M B) : M B :=
  fun st => match m st with
            | (st', Ok a) => k a st'
            | (st', Err e) => (st', Err e)
            end.

Notation "'let?' x ':=' m 'in' k" := (bind m (fun x => k))
  (at level 200, x name, m at level 100, k at level 200).

(** [for a in &args { args.push(self.evaluate(a)?); }] *)
Fixpoint eval_all (ms : list (M Value)) : M (list Value) :=
  match ms with
  | [] => ret []
  | m :: ms' => let? v := m in let? vs := eval_all ms' in ret (v :: vs)
  end.

(* ------------------------------------------------------------------ *)
(** ** The evaluator (interpreter.rs: [impl Interpreter]) *)

Section Evaluator.

(** Rust's [%] on [f64] (C's [fmod]). *)
Variable frem : float -> float -> float.
(** [f64]'s [Display], used by [n.to_string()]. *)
Variable show_f64 : float -> string.
(** stdlib: [REGISTRY_STD] and [REGISTRY_OPTIONAL]. *)
Variable REGISTRY_STD : list NativeModule.
Variable REGISTRY_OPTIONAL : list NativeModule.

Definition register_funcs (m : NativeModule) (ns : gmap string Native)
  : gmap string Native :=
  fold_left (fun acc nf => <[mod_name m +:+ "_" +:+ fst nf := snd nf]> acc)
            (funcs m) ns.

(** [Interpreter::new] with [load_std]. *)
Definition new_interpreter : Interpreter :=
  mkInterpreter (fold_left (fun acc m => register_funcs m acc) REGISTRY_STD ∅)
                ∅ ∅.

Definition load_module (name : string) : M Value :=
  fun st =>
    if decide (name ∈ loaded_modules st) then (st, Ok VNil)
    else match find (fun m => String.eqb (mod_name m) name) REGISTRY_OPTIONAL with
         | Some m =>
             (mkInterpreter (register_funcs m (natives st)) (vars st)
                            ({[ name ]} ∪ loaded_modules st), Ok VNil)
         | None => (st, Err ("module '" +:+ name +:+ "' not found"))
         end.

Inductive EntryKind : Type :=
| KIndexed
| KKeyed (k : string)
| KNumKeyed (n : float).

Definition exec_collection (es : list (EntryKind * M Value)) : M Value :=
  (fix go (es : list (EntryKind * M Value)) (c : CValue) (idx : N) : M Value :=
     match es with
     | [] =>
         ret (VCollection (if (0 <? idx)%N then mkCValue (entries c) idx else c))
     | (KIndexed, m) :: es' =>
         let? v := m in go es' (CV.insert c (Index idx) v) (usize_succ idx)
     | (KKeyed k, m) :: es' =>
         let? v := m in go es' (CV.insert c (KString k) v) idx
     | (KNumKeyed n, m) :: es' =>
         let? v := m in go es' (CV.insert c (KNumber (show_f64 n)) v) idx
     end) es CV.new 0%N.

Definition exec_fa (om : M Value) (field : string) : M Value :=
  let? ovalue := om in
  match ovalue with
  | VCollection c =>
      match CV.get_by_string c field with
      | Some v => ret v
      | None => fail ("undefined field '" +:+ field +:+ "'")
      end
  | _ => fail ("cannot access field '" +:+ field +:+ "' on non object")
  end.

Definition exec_block (ms : list (M Value)) : M Value :=
  (fix go (ms : list (M Value)) (last : Value) : M Value :=
     match ms with
     | [] => ret last
     | m :: ms' => let? v := m in go ms' v
     end) ms VNil.

Definition exec_if (cm : M Value) (block : M Value) (else_block : option (M Value))
  : M Value :=
  let? cond := cm in
  if is_truthy cond then block
  else match else_block with
       | Some eb => eb
       | None => ret VNil
       end.

Definition exec_idx_access (om im : M Value) : M Value :=
  let? col := om in
  let? idx := im in
  match col with
  | VCollection c =>
      match idx with
      | VNumber n =>
          ret (match CV.get c (Index (f64_as_usize n)) with Some v => v | None => VNil end)
      | VString s =>
          ret (match CV.get c (KString s) with Some v => v | None => VNil end)
      | _ => fail "collection index must be a number or string"
      end
  | _ => fail ("cannot index into " +:+ type_name col)
  end.

Definition exec_method_call (object : Expr) (om : M Value) (method : string)
    (argms : list (M Value)) : M Value :=
  let? args := eval_all argms in
  match object with
  | Identifier id =>
      fun st =>
        match vars st !! id with
        | Some val =>
            match call_method val method args with
            | (val', Ok r) => (set_vars st (<[id := val']> (vars st)), Ok r)
            | (_, Err e) => (st, Err e)
            end
        | None => (st, Err ("undefined variable '" +:+ id +:+ "'"))
        end
  | _ =>
      let? o := om in
      fun st => (st, snd (call_method o method args))
  end.

Definition exec_unary_op (m : M Value) (op : TokenType) : M Value :=
  let? operand := m in
  match op with
  | Sub =>
      match operand with
      | VNumber n => ret (VNumber (PrimFloat.opp n))
      | _ => fail "negate unary operator only supported on numbers"
      end
  | _ => fail ("unsupported unary operator " +:+ TokenType_debug op)
  end.

Definition exec_call (module : option string) (name : string)
    (argms : list (M Value)) : M Value :=
  let? args := eval_all argms in
  let sig := match module with Some m => m +:+ "_" +:+ name | None => name end in
  fun st =>
    match natives st !! sig with
    | Some f => (st, f args)
    | None =>
        match natives st !! name with
        | Some f => (st, f args)
        | None => (st, Err ("undefined function '" +:+ name +:+ "'"))
        end
    end.

Definition arith (op : TokenType) (l r : float) : result Value :=
  match op with
  | Add => Ok (VNumber (PrimFloat.add l r))
  | Sub => Ok (VNumber (PrimFloat.sub l r))
  | Mul => Ok (VNumber (PrimFloat.mul l r))
  | Div => if PrimFloat.eqb r PrimFloat.zero then Err "division by zero"
           else Ok (VNumber (PrimFloat.div l r))
  | Mod => if PrimFloat.eqb r PrimFloat.zero then Err "modulo by zero"
           else Ok (VNumber (frem l r))
  | _ => Err "unreachable"
  end.

Definition exec_binary_op (lm rm : M Value) (op : TokenType) : M Value :=
  let? left := lm in
  let? right := rm in
  match op with
  | DblEquals => ret (VBool (value_eqb left right))
  | Lt => ret (VBool (value_lt left right))
  | Gt => ret (VBool (value_gt left right))
  | Lte => ret (VBool (value_le left right))
  | Gte => ret (VBool (value_ge left right))
  | Neq => ret (VBool (negb (value_eqb left right)))
  | Add | Sub | Mul | Div | Mod =>
      match left, right with
      | VNumber l, VNumber r => fun st => (st, arith op l r)
      | _, _ => fail "arithmetic operations can only be performed on numbers"
      end
  | _ => fail ("unsupported binary operator " +:+ TokenType_debug op)
  end.

Definition exec_var_decl (name : string) (vm : M Value) : M Value :=
  fun st =>
    match vars st !! name with
    | Some _ => (st, Err ("variable '" +:+ name +:+ "' already defined!"))
    | None =>
        (let? value := vm in
         fun st' => (set_vars st' (<[name := value]> (vars st')), Ok VNil)) st
    end.

Definition exec_assignment (name : string) (am : M Value) : M Value :=
  fun st =>
    match vars st !! name with
    | Some _ =>
        (let? avalue := am in
         fun st' => (set_vars st' (alter (fun _ => avalue) name (vars st')), Ok VNil)) st
    | None => (st, Err ("variable '" +:+ name +:+ "' not defined!"))
    end.

Fixpoint evaluate (e : Expr) : M Value :=
  match e with
  | Number n => ret (VNumber n)
  | EString s => ret (VString s)
  | Identifier name =>
      fun st => match vars st !! name with
                | Some v => (st, Ok v)
                | None => (st, Err ("undefined variable or reference '" +:+ name +:+ "'"))
                end
  | Call module name args => exec_call module name (map evaluate args)
  | Collection es =>
      exec_collection
        (map (fun ce => match ce with
                        | Indexed x => (KIndexed, evaluate x)
                        | Keyed k x => (KKeyed k, evaluate x)
                        | NumKeyed n x => (KNumKeyed n, evaluate x)
                        end) es)
  | IndexAccess o i => exec_idx_access (evaluate o) (evaluate i)
  | MethodCall o method args =>
      exec_method_call o (evaluate o) method (map evaluate args)
  | VarDecl name v => exec_var_decl name (evaluate v)
  | Assignment name a => exec_assignment name (evaluate a)
  | BinaryOp l r op => exec_binary_op (evaluate l) (evaluate r) op
  | UnaryOp x op => exec_unary_op (evaluate x) op
  | If c b eb =>
      exec_if (evaluate c) (exec_block (map evaluate b))
              (option_map (fun b' => exec_block (map evaluate b')) eb)
  | Block b => exec_block (map evaluate b)
  | Include m => load_module m
  | FieldAccess o f => exec_fa (evaluate o) f
  end.

End Evaluator.

(* ------------------------------------------------------------------ *)
(** ** The lexer (lexer.rs: [Lexer])

    The lexer reads the source from a position [pos]; [current()] is the
    character at [pos] and the lexeme of a token is the text between the
    start and the end position. We model the lexer by the remaining input
    from [pos] on: a token is produced together with the input that
    follows it. The character classes are those of Rust's [char] methods
    on ASCII input. *)

Definition is_whitespace (c : ascii) : bool :=
  let n := Ascii.nat_of_ascii c in (n =? 32)%nat || ((9 <=? n)%nat && (n <=? 13)%nat).
Definition is_alphabetic (c : ascii) : bool :=
  let n := Ascii.nat_of_ascii c in
  ((65 <=? n)%nat && (n <=? 90)%nat) || ((97 <=? n)%nat && (n <=? 122)%nat).
Definition is_numeric (c : ascii) : bool :=
  let n := Ascii.nat_of_ascii c in (48 <=? n)%nat && (n <=? 57)%nat.
Definition is_alphanumeric (c : ascii) : bool := is_alphabetic c || is_numeric c.

Definition ceq (c d : ascii) : bool := Ascii.eqb c d.

(** The keyword table built by [Lexer::new]. *)
Definition keywords : list (string * TokenType) :=
  [("val", Val); ("if", TIf); ("else", TElse)].

Fixpoint keyword_get (k : string) (kws : list (string * TokenType))
  : option TokenType :=
  match kws with
  | [] => None
  | (k', t) :: kws' => if String.eqb k k' then Some t else keyword_get k kws'
  end.

(** The longest prefix whose characters satisfy [p], and the rest. *)
Fixpoint span (p : ascii -> bool) (s : list ascii) : list ascii * list ascii :=
  match s with
  | [] => ([], [])
  | c :: s' => if p c then let (a, b) := span p s' in (c :: a, b) else ([], s)
  end.

Definition process_identifier (s : list ascii) : Token * list ascii :=
  let (id, rest) := span (fun c => is_alphanumeric c || ceq c "_"%char) s in
  let ident := string_of_list_ascii id in
  match keyword_get ident keywords with
  | Some tok_type => (make_token tok_type ident, rest)
  | None => (make_token Ident ident, rest)
  end.

(** The loop of [process_number]: digits, and one ['.'] when a digit
    follows it. *)
Fixpoint number_chars (s : list ascii) (float : bool) : list ascii * list ascii :=
  match s with
  | [] => ([], [])
  | c :: s' =>
      if is_numeric c then let (a, b) := number_chars s' float in (c :: a, b)
      else if ceq c "."%char && negb float
              && match s' with d :: _ => is_numeric d | [] => false end
      then let (a, b) := number_chars s' true in (c :: a, b)
      else ([], s)
  end.

Definition process_number (s : list ascii) : Token * list ascii :=
  let (num, rest) := number_chars s false in
  (make_token TNumber (string_of_list_ascii num), rest).

(** [process_string], called on the opening quote. *)
Definition process_string (opening : ascii) (s : list ascii) : Token * list ascii :=
  let (body, rest) := span (fun c => negb (ceq c opening)) s in
  let rest' := match rest with c :: r => if ceq c opening then r else rest
                               | [] => [] end in
  (make_token TString (string_of_list_ascii body), rest').

(** [Lexer::next]: skips whitespace, then scans one token; characters it
    does not know are skipped ([advance(); next()]). *)
Fixpoint next (s : list ascii) : option (Token * list ascii) :=
  match s with
  | [] => None
  | c :: t =>
      if is_whitespace c then next t
      else if is_alphabetic c || ceq c "_"%char then Some (process_identifier s)
      else if is_numeric c then Some (process_number s)
      else if ceq c (Ascii.ascii_of_nat 34) || ceq c "'"%char then Some (process_string c t)
      else if ceq c ";"%char then Some (make_token Semi ";", t)
      else if ceq c "("%char then Some (make_token LParen "(", t)
      else if ceq c ")"%char then Some (make_token RParen ")", t)
      else if ceq c "{"%char then Some (make_token LBrace "{", t)
      else if ceq c "}"%char then Some (make_token RBrace "}", t)
      else if ceq c ","%char then Some (make_token Comma ",", t)
      else if ceq c "+"%char then Some (make_token Add "+", t)
      else if ceq c "-"%char then Some (make_token Sub "-", t)
      else if ceq c "*"%char then Some (make_token Mul "*", t)
      else if ceq c "/"%char then Some (make_token Div "/", t)
      else if ceq c "%"%char then Some (make_token Mod "%", t)
      else if ceq c ":"%char then
        match t with
        | d :: t' => if ceq d ":"%char then Some (make_token DblColon "::", t')
                     else Some (make_token Colon ":", t)
        | [] => Some (make_token Colon ":", t)
        end
      else if ceq c "="%char then
        match t with
        | d :: t' => if ceq d "="%char then Some (make_token DblEquals "==", t')
                     else Some (make_token Equals "=", t)
        | [] => Some (make_token Equals "=", t)
        end
      else if ceq c "<"%char then
        match t with
        | d :: t' => if ceq d "="%char then Some (make_token Lte "<=", t')
                     else Some (make_token Lt "<", t)
        | [] => Some (make_token Lt "<", t)
        end
      else if ceq c ">"%char then
        match t with
        | d :: t' => if ceq d "="%char then Some (make_token Gte ">=", t')
                     else Some (make_token Gt ">", t)
        | [] => Some (make_token Gt ">", t)
        end
      else if ceq c "!"%char then
        match t with
        | d :: t' => if ceq d "="%char then Some (make_token Neq "!=", t')
                     else next t
        | [] => next t
        end
      else next t
  end.

(** All the tokens the lexer produces on a source text, in order (each
    call of [next] consumes at least one character). *)
Fixpoint tokens_fuel (fuel : nat) (s : list ascii) : list Token :=
  match fuel with
  | O => []
  | S fuel' =>
      match next s with
      | Some (tok, rest) => tok :: tokens_fuel fuel' rest
      | None => []
      end
  end.

Definition tokenize (src : string) : list Token :=
  let s := list_ascii_of_string src in tokens_fuel (S (length s)) s.

(* ------------------------------------------------------------------ *)
(** ** The parser (parser.rs: [Parser])

    The parser pulls tokens from the lexer one at a time; [current] is the
    token under the cursor and [advance] pulls the next one. As lexing is
    pure, we model the parser on the list of tokens still to be read: its
    head is [current] ([None] when it is empty) and [advance] drops it.
    A parsing function returns its result with the tokens it left. The
    recursion of the parsing functions is bounded by a fuel argument. *)

Section Parser.

(** [str::parse::<f64>] on the lexeme of a number token. *)
Variable parse_f64 : string -> float.

Definition PResult (A : Type) : Type := result (A * list Token).

Definition pthen {A B} (r : PResult A) (k : A -> list Token -> PResult B)
  : PResult B :=
  match r with
  | Ok (a, ts) => k a ts
  | Err e => Err e
  end.

Notation "'let#' x ts ':=' r 'in' k" := (pthen r (fun x ts => k))
  (at level 200, x name, ts name, r at level 100, k at level 200).

Definition check (ts : list Token) (target : TokenType) : bool :=
  match ts with
  | t :: _ => TokenType_eqb (token_type t) target
  | [] => TokenType_eqb target Eof
  end.

Definition advance (ts : list Token) : list Token := tl ts.

Definition current_debug (ts : list Token) : string :=
  match ts with
  | t :: _ => "Some(" +:+ TokenType_debug (token_type t) +:+ ")"
  | [] => "None"
  end.

Definition consume (ts : list Token) (expect : TokenType) : PResult Token :=
  if check ts expect then
    match ts with
    | t :: ts' => Ok (t, ts')
    | [] => Err "unexpected eof"
    end
  else Err ("expected " +:+ TokenType_debug expect +:+ " but found "
              +:+ current_debug ts).

Definition precedence (t : TokenType) : nat :=
  match t with
  | DblEquals | Lt | Gt | Lte | Gte | Neq => 1
  | Add | Sub => 2
  | Mul | Div | Mod => 3
  | _ => 0
  end.

Definition is_binop (t : TokenType) : bool :=
  match t with
  | Add | Sub | Mul | Div | Mod | DblEquals | Lt | Gt | Lte | Gte | Neq => true
  | _ => false
  end.

(** [{:?}] of a [Token] (the escaping of special characters in the
    lexeme is not modelled). *)
Definition Token_debug (t : Token) : string :=
  "Token { token_type: " +:+ TokenType_debug (token_type t) +:+ ", lexeme: "
    +:+ dq +:+ lexeme t +:+ dq +:+ " }".

Definition parse_include (ts : list Token) : PResult Expr :=
  let# _t ts := consume ts TInclude in
  match ts with
  | t :: ts' =>
      if TokenType_eqb (token_type t) Ident then Ok (Include (lexeme t), ts')
      else Err "expected identifier after 'include'"
  | [] => Err "expected identifier after 'include'"
  end.

Definition parse_number (ts : list Token) : PResult Expr :=
  match ts with
  | t :: ts' => Ok (Number (parse_f64 (lexeme t)), ts')
  | [] => Err "unexpected eof"
  end.

Definition parse_string (ts : list Token) : PResult Expr :=
  match ts with
  | t :: ts' => Ok (EString (lexeme t), ts')
  | [] => Err "unexpected eof"
  end.

Definition out_of_fuel {A} : PResult A := Err "out of fuel".

Fixpoint parse_expr (n : nat) (ts : list Token) {struct n} : PResult Expr :=
  match n with
  | O => out_of_fuel
  | S n' => parse_bin_expr n' 0 ts
  end

(** [parse_bin_expr(precedence)]: an operand, then the [while] loop. *)
with parse_bin_expr (n : nat) (prec : nat) (ts : list Token) {struct n}
  : PResult Expr :=
  match n with
  | O => out_of_fuel
  | S n' =>
      let# left ts := parse_postfix n' ts in
      bin_loop n' prec left ts
  end

with bin_loop (n : nat) (prec : nat) (left : Expr) (ts : list Token) {struct n}
  : PResult Expr :=
  match n with
  | O => out_of_fuel
  | S n' =>
      match ts with
      | t :: ts' =>
          if negb (is_binop (token_type t)) then Ok (left, ts)
          else if Nat.ltb (precedence (token_type t)) prec then Ok (left, ts)
          else
            let op := token_type t in
            let# right ts := parse_bin_expr n' (precedence op + 1) ts' in
            bin_loop n' prec (BinaryOp left right op) ts
      | [] => Ok (left, ts)
      end
  end

with parse_prim (n : nat) (ts : list Token) {struct n} : PResult Expr :=
  match n with
  | O => out_of_fuel
  | S n' =>
      match ts with
      | t :: _ =>
          match token_type t with
          | TInclude => parse_include ts
          | Sub => parse_unary n' ts
          | Val => parse_var_decl n' ts
          | Ident => parse_identifier n' ts
          | TString => parse_string ts
          | TNumber => parse_number ts
          | LParen => parse_grouped n' ts
          | LBracket => parse_collection n' ts
          | LBrace => let# b ts := parse_block n' ts in Ok (Block b, ts)
          | TIf => parse_if n' ts
          | _ => Err ("unexpected token " +:+ Token_debug t)
          end
      | [] => Err "unexpected eof"
      end
  end

(** [parse_postfix]: a primary, then the [loop] over [[idx]] and [.name]. *)
with parse_postfix (n : nat) (ts : list Token) {struct n} : PResult Expr :=
  match n with
  | O => out_of_fuel
  | S n' =>
      let# e ts := parse_prim n' ts in
      postfix_loop n' e ts
  end

with postfix_loop (n : nat) (e : Expr) (ts : list Token) {struct n}
  : PResult Expr :=
  match n with
  | O => out_of_fuel
  | S n' =>
      match ts with
      | t :: _ =>
          match token_type t with
          | LBracket =>
              let# _t ts := consume ts LBracket in
              let# idx ts := parse_expr n' ts in
              let# _t ts := consume ts RBracket in
              postfix_loop n' (IndexAccess e idx) ts
          | Dot =>
              let# _t ts := consume ts Dot in
              let# m ts := consume ts Ident in
              if check ts LParen then
                let# _t ts := consume ts LParen in
                let# args ts := (if check ts RParen then Ok ([], ts)
                                 else parse_args n' ts) in
                let# _t ts := consume ts RParen in
                postfix_loop n' (MethodCall e (lexeme m) args) ts
              else postfix_loop n' (FieldAccess e (lexeme m)) ts
          | _ => Ok (e, ts)
          end
      | [] => Ok (e, ts)
      end
  end

with parse_unary (n : nat) (ts : list Token) {struct n} : PResult Expr :=
  match n with
  | O => out_of_fuel
  | S n' =>
      match ts with
      | t :: ts' =>
          let# operand ts := parse_postfix n' ts' in
          Ok (UnaryOp operand (token_type t), ts)
      | [] => Err "unexpected eof"
      end
  end

with parse_grouped (n : nat) (ts : list Token) {struct n} : PResult Expr :=
  match n with
  | O => out_of_fuel
  | S n' =>
      let# _t ts := consume ts LParen in
      let# e ts := parse_bin_expr n' 0 ts in
      let# _t ts := consume ts RParen in
      Ok (e, ts)
  end

with parse_collection (n : nat) (ts : list Token) {struct n} : PResult Expr :=
  match n with
  | O => out_of_fuel
  | S n' =>
      let# _t ts := consume ts LBracket in
      if check ts RBracket then
        let# _t ts := consume ts RBracket in Ok (Collection [], ts)
      else collection_loop n' [] ts
  end

(** One iteration of the [loop] of [parse_collection] per call; [acc] are
    the entries read so far. *)
with collection_loop (n : nat) (acc : list CEntry) (ts : list Token) {struct n}
  : PResult Expr :=
  match n with
  | O => out_of_fuel
  | S n' =>
      let entry : PResult CEntry :=
        if check ts Ident then
          match ts with
          | t :: ts1 =>
              if check ts1 Equals then
                let# _t ts := consume ts1 Equals in
                let# v ts := parse_expr n' ts in
                Ok (Keyed (lexeme t) v, ts)
              else Ok (Indexed (Identifier (lexeme t)), ts1)
          | [] => Err "unexpected eof"
          end
        else
          let# first ts := parse_expr n' ts in
          if check ts Equals then
            let# _t ts := consume ts Equals in
            let# value ts := parse_expr n' ts in
            match first with
            | EString s => Ok (Keyed s value, ts)
            | Number x => Ok (NumKeyed x value, ts)
            | _ => Err "invalid key usage type for collection structure entry."
            end
          else Ok (Indexed first, ts) in
      let# ce ts := entry in
      let acc := app acc [ce] in
      if check ts Comma then
        let# _t ts := consume ts Comma in
        if check ts RBracket then
          let# _t ts := consume ts RBracket in Ok (Collection acc, ts)
        else collection_loop n' acc ts
      else if check ts RBracket then
        let# _t ts := consume ts RBracket in Ok (Collection acc, ts)
      else Err "expected ',' or ']' to terminate collection definition."
  end

with parse_if (n : nat) (ts : list Token) {struct n} : PResult Expr :=
  match n with
  | O => out_of_fuel
  | S n' =>
      let# _t ts := consume ts TIf in
      let# cond ts := parse_expr n' ts in
      let# block ts := parse_block n' ts in
      if check ts TElse then
        let# _t ts := consume ts TElse in
        if check ts TIf then
          let# e ts := parse_if n' ts in Ok (If cond block (Some [e]), ts)
        else
          let# eb ts := parse_block n' ts in Ok (If cond block (Some eb), ts)
      else Ok (If cond block None, ts)
  end

with parse_block (n : nat) (ts : list Token) {struct n} : PResult (list Expr) :=
  match n with
  | O => out_of_fuel
  | S n' =>
      let# _t ts := consume ts LBrace in
      block_loop n' [] ts
  end

(** The [while] loop of [parse_block], then the closing brace. *)
with block_loop (n : nat) (acc : list Expr) (ts : list Token) {struct n}
  : PResult (list Expr) :=
  match n with
  | O => out_of_fuel
  | S n' =>
      if negb (check ts RBrace) && negb (check ts Eof) then
        let# e ts := parse_expr n' ts in
        let ts := if check ts Semi then advance ts else ts in
        block_loop n' (app acc [e]) ts
      else
        let# _t ts := consume ts RBrace in Ok (acc, ts)
  end

with parse_identifier (n : nat) (ts : list Token) {struct n} : PResult Expr :=
  match n with
  | O => out_of_fuel
  | S n' =>
      match ts with
      | t :: ts =>
          let name := lexeme t in
          if check ts DblColon then
            let# _t ts := consume ts DblColon in
            let# f ts := consume ts Ident in
            if check ts LParen then parse_call n' (Some name) (lexeme f) ts
            else Ok (Identifier (name +:+ "::" +:+ lexeme f), ts)
          else if check ts LParen then parse_call n' None name ts
          else if check ts Equals then parse_assignment n' name ts
          else Ok (Identifier name, ts)
      | [] => Err "unexpected eof"
      end
  end

(** [parse_call] ([module = None]) and [parse_mod_call]. *)
with parse_call (n : nat) (module : option string) (name : string)
    (ts : list Token) {struct n} : PResult Expr :=
  match n with
  | O => out_of_fuel
  | S n' =>
      let# _t ts := consume ts LParen in
      let# args ts := (if check ts RParen then Ok ([], ts) else parse_args n' ts) in
      let# _t ts := consume ts RParen in
      Ok (Call module name args, ts)
  end

with parse_assignment (n : nat) (name : string) (ts : list Token) {struct n}
  : PResult Expr :=
  match n with
  | O => out_of_fuel
  | S n' =>
      let# _t ts := consume ts Equals in
      let# assignee ts := parse_bin_expr n' 0 ts in
      Ok (Assignment name assignee, ts)
  end

with parse_var_decl (n : nat) (ts : list Token) {struct n} : PResult Expr :=
  match n with
  | O => out_of_fuel
  | S n' =>
      let# _t ts := consume ts Val in
      let# name ts := consume ts Ident in
      let# _t ts := consume ts Equals in
      let# value ts := parse_expr n' ts in
      Ok (VarDecl (lexeme name) value, ts)
  end

with parse_args (n : nat) (ts : list Token) {struct n} : PResult (list Expr) :=
  match n with
  | O => out_of_fuel
  | S n' =>
      let# first ts := parse_bin_expr n' 0 ts in
      args_loop n' [first] ts
  end

with args_loop (n : nat) (acc : list Expr) (ts : list Token) {struct n}
  : PResult (list Expr) :=
  match n with
  | O => out_of_fuel
  | S n' =>
      if check ts Comma then
        let# _t ts := consume ts Comma in
        if check ts RParen then Ok (acc, ts)
        else
          let# a ts := parse_bin_expr n' 0 ts in
          args_loop n' (app acc [a]) ts
      else Ok (acc, ts)
  end.

(** [Parser::parse]: expressions up to the end of input, each optionally
    followed by a semicolon. *)
Fixpoint parse_program (n : nat) (ts : list Token) : result (list Expr) :=
  match n with
  | O => Err "out of fuel"
  | S n' =>
      if check ts Eof then Ok []
      else
        match parse_expr n' ts with
        | Ok (e, ts) =>
            let ts := if check ts Semi then advance ts else ts in
            match parse_program n' ts with
            | Ok es => Ok (e :: es)
            | Err err => Err err
            end
        | Err err => Err err
        end
  end.

End Parser.

(* ------------------------------------------------------------------ *)
(** ** [Method::got_method] (interpreter.rs) *)

Definition got_method (self : Value) (method : string) : bool :=
  match self with
  | VCollection _ =>
      String.eqb method "push" || String.eqb method "pop"
      || String.eqb method "size" || String.eqb method "get"
      || String.eqb method "insert"
  | VString _ => String.eqb method "len"
  | _ => false
  end.

(* ------------------------------------------------------------------ *)
(** ** Native functions of the standard library (stdlib/string.rs,
    stdlib/io.rs)

    A native function returns its [Result], or panics (an index out of
    bounds, an [unwrap] of [None] or [Err], a string slice that does not
    fall on character boundaries). *)

Inductive outcome : Type :=
| Returned (r : result Value)
| Panicked.

(** [str::is_char_boundary] on the UTF-8 bytes of a string: the start
    and the end, and every byte that is not a continuation byte
    ([0x80 .. 0xBF]). *)
Definition is_char_boundary (s : string) (index : nat) : bool :=
  match index with
  | O => true
  | _ =>
      match String.get index s with
      | None => Nat.eqb index (String.length s)
      | Some b =>
          negb ((128 <=? Ascii.nat_of_ascii b)%nat && Nat.ltb (Ascii.nat_of_ascii b) 192)
      end
  end.

Section Stdlib.

(** [Value]'s [Display] (whose collections are printed in the iteration
    order of a [HashMap]) and its derived [Debug]. *)
Variable show_value : Value -> string.
Variable debug_value : Value -> string.
(** [str::parse::<f64>]. *)
Variable parse_f64_opt : string -> option float.
(** [fs::write]: [None] on success, the error's text otherwise. *)
Variable fs_write : string -> string -> option string.

(** [Value::as_string] *)
Definition as_string (v : Value) : result string :=
  match v with
  | VString s => Ok s
  | _ => Err (debug_value v +:+ " is not a string")
  end.

(** string.rs: [to_number_nfn], registered as [string::parse]. *)
Definition to_number_nfn (args : list Value) : outcome :=
  match args with
  | [a] =>
      match a with
      | VString s =>
          match parse_f64_opt s with
          | Some f => Returned (Ok (VNumber f))
          | None => Panicked
          end
      | _ => Returned (Err ("not a string in string::to_number, got " +:+ show_value a))
      end
  | a :: _ =>
      Returned (Err ("too many arguments or too little for function string::to_number, got "
                       +:+ show_value a +:+ ", want 1"))
  | [] => Panicked
  end.

(** string.rs: [sub_nfn], registered as [string::sub]. *)
Definition sub_nfn (args : list Value) : outcome :=
  match args with
  | [a0; a1; a2] =>
      match a0, a1, a2 with
      | VString s, VNumber start, VNumber end_ =>
          let start_idx := f64_as_usize start in
          let end_idx := f64_as_usize end_ in
          let len := N.of_nat (String.length s) in
          if (len <? start_idx)%N || (len <? end_idx)%N || (end_idx <? start_idx)%N
          then Returned (Err "string::sub: invalid indices")
          else if is_char_boundary s (N.to_nat start_idx)
                  && is_char_boundary s (N.to_nat end_idx)
          then Returned (Ok (VString (substring (N.to_nat start_idx)
                                        (N.to_nat (end_idx - start_idx)) s)))
          else Panicked
      | VString _, VNumber _, _ =>
          Returned (Err ("string::sub expects third argument to be a number, got "
                           +:+ show_value a2))
      | VString _, _, _ =>
          Returned (Err ("string::sub expects second argument to be a number, got "
                           +:+ show_value a1))
      | _, _, _ =>
          Returned (Err ("string::sub expects first argument to be a string, got "
                           +:+ show_value a0))
      end
  | _ =>
      Returned (Err ("too many arguments or too little for function string::sub, got "
                       +:+ pretty (length args) +:+ ", want 3"))
  end.

(** io.rs: [write_file_nfn], registered as [io::write_file]. *)
Definition write_file_nfn (args : list Value) : outcome :=
  if Nat.ltb 2 (length args) then
    Returned (Err ("too many arguments for io::write_file, got " +:+ pretty (length args)))
  else
    match args with
    | [] => Panicked
    | a0 :: rest =>
        match as_string a0 with
        | Err e => Returned (Err e)
        | Ok path =>
            match rest with
            | [] => Panicked
            | a1 :: _ =>
                match as_string a1 with
                | Err e => Returned (Err e)
                | Ok content =>
                    match fs_write path content with
                    | Some e => Returned (Err ("io::write_file[error] failed to write input: " +:+ e))
                    | None => Returned (Ok (VBool true))
                    end
                end
            end
        end
    end.

End Stdlib.

(* ------------------------------------------------------------------ *)
(** ** The driver (main.rs: [execute]) *)

Section Main.

Variable frem : float -> float -> float.
Variable show_f64 : float -> string.
Variable REGISTRY_OPTIONAL : list NativeModule.
Variable parse_f64 : string -> float.
(** [Value]'s [Display], used by [println!("{}", result)]. *)
Variable show_value : Value -> string.

(** The [for expr in exprs] loop of [execute]: the interpreter after it
    and the lines it prints. *)
Fixpoint run_exprs (es : list Expr) (st : Interpreter) : Interpreter * list string :=
  match es with
  | [] => (st, [])
  | e :: es' =>
      match evaluate frem show_f64 REGISTRY_OPTIONAL e st with
      | (st', Err err) => (st', ["runtime error: " +:+ err])
      | (st', Ok result) =>
          let (st'', out) := run_exprs es' st' in
          (st'', app (if negb (value_eqb result VNil) then [show_value result] else []) out)
      end
  end.

(** [execute]: parse the whole text, then run it. *)
Definition execute (fuel : nat) (code : string) (st : Interpreter)
  : Interpreter * list string :=
  match parse_program parse_f64 fuel (tokenize code) with
  | Err e => (st, ["parser error: " +:+ e])
  | Ok exprs => run_exprs exprs st
  end.

End Main.

(* ------------------------------------------------------------------ *)
(** ** Predicates used by the properties *)

(** The expression evaluated by an entry of a collection literal. *)
Definition entry_expr (ce : CEntry) : Expr :=
  match ce with
  | Indexed x | Keyed _ x | NumKeyed _ x => x
  end.

(** The values of the [Indexed] entries of a collection literal, given
    the values of all its entries. *)
Fixpoint indexed_vals (es : list CEntry) (vs : list Value) : list Value :=
  match es, vs with
  | Indexed _ :: es', v :: vs' => v :: indexed_vals es' vs'
  | _ :: es', _ :: vs' => indexed_vals es' vs'
  | _, _ => []
  end.

(** The entries of a collection form a map (no key twice), and every
    [Index] key is below the size. *)
Definition wf_collection (c : CValue) : Prop :=
  NoDup (map fst (entries c))
  /\ Forall (fun kv => match fst kv with Index i => (i < size c)%N | _ => True end)
            (entries c).

(** The token types that lexer.rs declares (all but the four that only
    parser.rs names), and [Eof], which the lexer never builds either. *)
Definition lexable (t : TokenType) : bool :=
  match t with
  | LBracket | RBracket | Dot | TInclude | Eof => false
  | _ => true
  end.

Definition okts (ts : list Token) : bool :=
  forallb (fun t => lexable (token_type t)) ts.

(** Expressions without the nodes that only those four tokens produce:
    collection literals, index and field access, method calls and
    includes. *)
Fixpoint plain (e : Expr) : bool :=
  match e with
  | Identifier _ | Number _ | EString _ => true
  | Call _ _ args => forallb plain args
  | VarDecl _ v => plain v
  | Assignment _ a => plain a
  | BinaryOp l r _ => plain l && plain r
  | UnaryOp x _ => plain x
  | Block b => forallb plain b
  | If c b eb =>
      plain c && forallb plain b
      && match eb with Some b' => forallb plain b' | None => true end
  | Collection _ | IndexAccess _ _ | MethodCall _ _ _ | Include _ | FieldAccess _ _ => false
  end.

(** The characters [Lexer::next] acts on; it skips all others. *)
Definition recognized (c : ascii) : bool :=
  is_whitespace c || is_alphabetic c || ceq c "_"%char || is_numeric c
  || ceq c (Ascii.ascii_of_nat 34) || ceq c "'"%char
  || ceq c ";"%char || ceq c "("%char || ceq c ")"%char || ceq c "{"%char
  || ceq c "}"%char || ceq c ","%char || ceq c "+"%char || ceq c "-"%char
  || ceq c "*"%char || ceq c "/"%char || ceq c "%"%char || ceq c ":"%char
  || ceq c "="%char || ceq c "<"%char || ceq c ">"%char || ceq c "!"%char.

(** The byte string is ASCII. *)
Definition ascii_only (s : string) : Prop :=
  Forall (fun c => Ascii.nat_of_ascii c < 128) (list_ascii_of_string s).


(** An induction principle for [Expr] that goes into the argument lists,
    blocks and collection entries of a node. *)
Section ExprInd.
Variable P : Expr -> Prop.
Hypothesis HIdent : forall x, P (Identifier x).
Hypothesis HNum : forall n, P (Number n).
Hypothesis HStr : forall s, P (EString s).
Hypothesis HCall : forall m f args, Forall P args -> P (Call m f args).
Hypothesis HDecl : forall x e, P e -> P (VarDecl x e).
Hypothesis HAssign : forall x e, P e -> P (Assignment x e).
Hypothesis HBin : forall l r op, P l -> P r -> P (BinaryOp l r op).
Hypothesis HUn : forall e op, P e -> P (UnaryOp e op).
Hypothesis HBlock : forall b, Forall P b -> P (Block b).
Hypothesis HIf : forall c b eb, P c -> Forall P b ->
  match eb with Some b' => Forall P b' | None => True end -> P (If c b eb).
Hypothesis HColl : forall es, Forall (fun ce => P (entry_expr ce)) es -> P (Collection es).
Hypothesis HIdx : forall o i, P o -> P i -> P (IndexAccess o i).
Hypothesis HMeth : forall o m args, P o -> Forall P args -> P (MethodCall o m args).
Hypothesis HInc : forall m, P (Include m).
Hypothesis HField : forall o f, P o -> P (FieldAccess o f).

Fixpoint Expr_ind' (e : Expr) : P e :=
  let fix go (l : list Expr) : Forall P l :=
    match l with
    | [] => @List.Forall_nil _ P
    | x :: l' => @List.Forall_cons _ P x l' (Expr_ind' x) (go l')
    end in
  match e with
  | Identifier x => HIdent x
  | Number n => HNum n
  | EString s => HStr s
  | Call m f args => HCall m f args (go args)
  | VarDecl x v => HDecl x v (Expr_ind' v)
  | Assignment x v => HAssign x v (Expr_ind' v)
  | BinaryOp l r op => HBin l r op (Expr_ind' l) (Expr_ind' r)
  | UnaryOp x op => HUn x op (Expr_ind' x)
  | Block b => HBlock b (go b)
  | If c b eb =>
      HIf c b eb (Expr_ind' c) (go b)
        (match eb as o return match o with Some b' => Forall P b' | None => True end with
         | Some b' => go b'
         | None => I
         end)
  | Collection es =>
      HColl es
        ((fix goc (l : list CEntry) : Forall (fun ce => P (entry_expr ce)) l :=
            match l with
            | [] => @List.Forall_nil _ _
            | ce :: l' =>
                @List.Forall_cons _ (fun ce => P (entry_expr ce)) ce l'
                  (match ce as ce return P (entry_expr ce) with
                   | Indexed x => Expr_ind' x
                   | Keyed _ x => Expr_ind' x
                   | NumKeyed _ x => Expr_ind' x
                   end) (goc l')
            end) es)
  | IndexAccess o i => HIdx o i (Expr_ind' o) (Expr_ind' i)
  | MethodCall o m args => HMeth o m args (Expr_ind' o) (go args)
  | Include m => HInc m
  | FieldAccess o f => HField o f (Expr_ind' o)
  end.
End ExprInd.

(** [st'] keeps every variable, every native function and every loaded
    module of [st]. *)
Definition grows (st st' : Interpreter) : Prop :=
  (forall x, is_Some (vars st !! x) -> is_Some (vars st' !! x))
  /\ (forall f, is_Some (natives st !! f) -> is_Some (natives st' !! f))
  /\ loaded_modules st ⊆ loaded_modules st'.

(** A computation that only ever grows the state. *)
Definition keeps {A} (m : M A) : Prop := forall st, grows st (fst (m st)).

(** A parse result whose value satisfies [p] and whose remaining tokens
    are all lexable (an error satisfies it). *)
Definition okr {A} (p : A -> bool) (r : PResult A) : Prop :=
  match r with Ok (a, ts) => p a = true /\ okts ts = true | Err _ => True end.

(** Every parsing function, on lexable tokens, returns [plain] syntax and
    leaves lexable tokens. *)
Definition parser_inv (pf : string -> float) (n : nat) : Prop :=
  (forall ts, okts ts = true -> okr plain (parse_expr pf n ts))
  /\ (forall ts prec, okts ts = true -> okr plain (parse_bin_expr pf n prec ts))
  /\ (forall ts prec left, okts ts = true -> plain left = true ->
        okr plain (bin_loop pf n prec left ts))
  /\ (forall ts, okts ts = true -> okr plain (parse_prim pf n ts))
  /\ (forall ts, okts ts = true -> okr plain (parse_postfix pf n ts))
  /\ (forall ts e, okts ts = true -> plain e = true -> okr plain (postfix_loop pf n e ts))
  /\ (forall ts, okts ts = true -> okr plain (parse_unary pf n ts))
  /\ (forall ts, okts ts = true -> okr plain (parse_grouped pf n ts))
  /\ (forall ts, okts ts = true -> okr plain (parse_if pf n ts))
  /\ (forall ts, okts ts = true -> okr (forallb plain) (parse_block pf n ts))
  /\ (forall ts acc, okts ts = true -> forallb plain acc = true ->
        okr (forallb plain) (block_loop pf n acc ts))
  /\ (forall ts, okts ts = true -> okr plain (parse_identifier pf n ts))
  /\ (forall ts m name, okts ts = true -> okr plain (parse_call pf n m name ts))
  /\ (forall ts name, okts ts = true -> okr plain (parse_assignment pf n name ts))
  /\ (forall ts, okts ts = true -> okr plain (parse_var_decl pf n ts))
  /\ (forall ts, okts ts = true -> okr (forallb plain) (parse_args pf n ts))
  /\ (forall ts acc, okts ts = true -> forallb plain acc = true ->
        okr (forallb plain) (args_loop pf n acc ts)).

(** The lines [execute] prints for the results [vs]: those that are not
    [Nil]. *)
Definition shown (show_value : Value -> string) (vs : list Value) : list string :=
  map show_value (List.filter (fun v => negb (value_eqb v VNil)) vs).

(** An [f64] whose value is a whole number. *)
Definition is_whole (v : float) : bool :=
  match Prim2SF v with
  | S754_zero _ => true
  | S754_finite _ m e => (0 <=? e)%Z || (Z.pos m mod 2 ^ (- e) =? 0)%Z
  | _ => false
  end.

(** The shape of the text [f64]'s [Display] prints for [v]: an optional
    minus sign, digits [ds], and an optional fraction [fr] of a dot and
    digits, absent for a whole number. *)
Definition display_shape (v : float) (out : string) (sgn : bool) (ds fr : list ascii) : Prop :=
  list_ascii_of_string out = app (if sgn then ["-"%char] else []) (app ds fr)
  /\ ds <> [] /\ Forall (fun d => is_numeric d = true) ds
  /\ (fr = [] \/ exists ds2, fr = "."%char :: ds2 /\ ds2 <> []
                             /\ Forall (fun d => is_numeric d = true) ds2)
  /\ (is_whole v = true -> fr = []).



(* ================================================================== *)
(** * Properties *)

Example tokenize_val : tokenize "val x = 1.5;" =
  [make_token Val "val"; make_token Ident "x"; make_token Equals "=";
   make_token TNumber "1.5"; make_token Semi ";"].
Proof. reflexivity. Qed.

Section Properties.

Variable frem : float -> float -> float.
Variable show_f64 : float -> string.
Variable REGISTRY_OPTIONAL : list NativeModule.

Local Abbreviation eval := (evaluate frem show_f64 REGISTRY_OPTIONAL).

Lemma set_vars_id (st : Interpreter) : set_vars st (vars st) = st.
Proof. by destruct st. Qed.

(** C10 *)
Lemma var_decl_assign_fail_atomic (st : Interpreter) (name : string) (e : Expr) :
  (is_Some (vars st !! name) ->
   eval (VarDecl name e) st = (st, Err ("variable '" +:+ name +:+ "' already defined!")))
  /\ (vars st !! name = None ->
   eval (Assignment name e) st = (st, Err ("variable '" +:+ name +:+ "' not defined!"))).
Proof.
  split.
  - intros [v Hv]. simpl. unfold exec_var_decl. by rewrite Hv.
  - intros Hn. simpl. unfold exec_assignment. by rewrite Hn.
Qed.

(** C4: a value is falsy exactly when it is [false], nil or an empty
    collection ([0] and the empty string are truthy); an [if] whose
    condition evaluates to a truthy value runs the then-block, one whose
    condition is falsy runs the else-block when there is one and gives nil
    otherwise, and an error in the condition is the result of the [if]. *)
Lemma if_truthiness :
  (forall v : Value, is_truthy v = false <->
     v = VBool false \/ v = VNil \/ exists n, v = VCollection (mkCValue [] n))
  /\ (forall (c : Expr) (b : list Expr) (st st' : Interpreter) (v : Value),
        eval c st = (st', Ok v) -> is_truthy v = false ->
        eval (If c b None) st = (st', Ok VNil))
  /\ (forall st : Interpreter,
        eval (If (Number 0%float) [EString "a"] (Some [EString "b"])) st
        = (st, Ok (VString "a")))
  /\ (forall st : Interpreter,
        eval (If (Collection []) [EString "a"] (Some [EString "b"])) st
        = (st, Ok (VString "b")))
  /\ (forall st : Interpreter,
        eval (If (EString "") [EString "a"] (Some [EString "b"])) st
        = (st, Ok (VString "a")))
  /\ (forall (c : Expr) (b : list Expr) (eb : option (list Expr))
        (st st' : Interpreter) (v : Value),
        eval c st = (st', Ok v) ->
        eval (If c b eb) st
        = if is_truthy v then eval (Block b) st'
          else match eb with
               | Some b' => eval (Block b') st'
               | None => (st', Ok VNil)
               end)
  /\ (forall (c : Expr) (b : list Expr) (eb : option (list Expr))
        (st st' : Interpreter) (e : string),
        eval c st = (st', Err e) -> eval (If c b eb) st = (st', Err e)).
Proof.
  split; [|split; [|split; [|split; [|split; [|split]]]]].
  - intros v; split.
    + destruct v as [n|s|[]|[es n]|]; simpl; try discriminate; eauto.
      destruct es; [eauto | discriminate].
    + intros [->|[->|[n ->]]]; reflexivity.
  - intros c b st st' v Hc Hf. simpl. unfold exec_if, bind. rewrite Hc, Hf. reflexivity.
  - intros st. reflexivity.
  - intros st. reflexivity.
  - intros st. reflexivity.
  - intros c b eb st st' v Hc. simpl. unfold exec_if, bind. rewrite Hc.
    destruct (is_truthy v); [reflexivity|]. by destruct eb.
  - intros c b eb st st' e Hc. simpl. unfold exec_if, bind. by rewrite Hc.
Qed.

(** C2 *)
Lemma index_nil_field_error (obj idx : Expr) (c : CValue) (st st1 st2 : Interpreter) :
  eval obj st = (st1, Ok (VCollection c)) ->
  (forall n : float, eval idx st1 = (st2, Ok (VNumber n)) ->
     CV.get c (Index (f64_as_usize n)) = None ->
     eval (IndexAccess obj idx) st = (st2, Ok VNil))
  /\ (forall s : string, eval idx st1 = (st2, Ok (VString s)) ->
     CV.get c (KString s) = None ->
     eval (IndexAccess obj idx) st = (st2, Ok VNil))
  /\ (forall f : string, CV.get_by_string c f = None ->
     eval (FieldAccess obj f) st = (st1, Err ("undefined field '" +:+ f +:+ "'"))).
Proof.
  intros Ho; split; [|split].
  - intros n Hi Hg. simpl. unfold exec_idx_access, bind. rewrite Ho, Hi, Hg. reflexivity.
  - intros s Hi Hg. simpl. unfold exec_idx_access, bind. rewrite Ho, Hi, Hg. reflexivity.
  - intros f Hg. simpl. unfold exec_fa, bind. rewrite Ho, Hg. reflexivity.
Qed.

(** C3 *)
Lemma arith_zero_divisor (le re : Expr) (l r : float) (st st1 st2 : Interpreter) :
  eval le st = (st1, Ok (VNumber l)) ->
  eval re st1 = (st2, Ok (VNumber r)) ->
  eval (BinaryOp le re Div) st
    = (st2, if PrimFloat.eqb r PrimFloat.zero then Err "division by zero"
            else Ok (VNumber (PrimFloat.div l r)))
  /\ eval (BinaryOp le re Mod) st
    = (st2, if PrimFloat.eqb r PrimFloat.zero then Err "modulo by zero"
            else Ok (VNumber (frem l r)))
  /\ eval (BinaryOp le re Add) st = (st2, Ok (VNumber (PrimFloat.add l r)))
  /\ eval (BinaryOp le re Sub) st = (st2, Ok (VNumber (PrimFloat.sub l r)))
  /\ eval (BinaryOp le re Mul) st = (st2, Ok (VNumber (PrimFloat.mul l r)))
  /\ (forall op : TokenType, op = Div \/ op = Mod ->
       (exists e, eval (BinaryOp le re op) st = (st2, Err e))
       <-> PrimFloat.eqb r PrimFloat.zero = true).
Proof.
  intros Hl Hr.
  repeat split;
    try (simpl; unfold exec_binary_op, bind; rewrite Hl, Hr; reflexivity).
  - intros [e He]. destruct H as [->| ->]; simpl in He;
      unfold exec_binary_op, bind in He; rewrite Hl, Hr in He; simpl in He;
      destruct (PrimFloat.eqb r PrimFloat.zero); congruence.
  - intros Hz. destruct H as [->| ->]; simpl; unfold exec_binary_op, bind;
      rewrite Hl, Hr; simpl; rewrite Hz; eauto.
Qed.

Lemma call_method_err_keeps (v : Value) (m : string) (args : list Value)
    (v' : Value) (e : string) :
  call_method v m args = (v', Err e) -> v' = v.
Proof.
  destruct v; simpl; repeat case_match; intros Hc; simplify_eq; done.
Qed.

(** C1 *)
Lemma method_call_write_back (obj : Expr) (m : string) (args : list Expr)
    (st st1 : Interpreter) (vs : list Value) :
  eval_all (map eval args) st = (st1, Ok vs) ->
  (forall (id : string) (val : Value),
     obj = Identifier id -> vars st1 !! id = Some val ->
     eval (MethodCall obj m args) st
     = (set_vars st1 (<[id := fst (call_method val m vs)]> (vars st1)),
        snd (call_method val m vs)))
  /\ ((forall id : string, obj <> Identifier id) ->
      forall (st2 : Interpreter) (o : Value), eval obj st1 = (st2, Ok o) ->
      eval (MethodCall obj m args) st = (st2, snd (call_method o m vs))).
Proof.
  intros Ha. split.
  - intros id val -> Hv.
    change (eval (MethodCall (Identifier id) m args) st)
      with (exec_method_call (Identifier id) (eval (Identifier id)) m
              (map eval args) st).
    unfold exec_method_call, bind. rewrite Ha, Hv.
    destruct (call_method val m vs) as [val' [r|e]] eqn:Hc; simpl; [done|].
    apply call_method_err_keeps in Hc as ->.
    by rewrite insert_id, set_vars_id.
  - intros Hn st2 o Ho.
    change (eval (MethodCall obj m args) st)
      with (exec_method_call obj (eval obj) m (map eval args) st).
    unfold exec_method_call, bind. rewrite Ha.
    destruct obj; try (rewrite Ho; reflexivity).
    exfalso; eapply Hn; reflexivity.
Qed.

Definition is_knumber (k : CKey) : bool :=
  match k with KNumber _ => true | _ => false end.

Lemma entries_get_index_skips_number (es : list (CKey * Value)) (i : N) :
  entries_get (Index i) es
  = entries_get (Index i) (filter (fun kv => negb (is_knumber (fst kv))) es).
Proof.
  induction es as [|[[j|t|t] v] es IH]; simpl; try done.
  rewrite IH. by destruct (N.eqb i j).
Qed.

End Properties.

(** The [insert] method bounds the index of an array-like collection by
    its size, and [CValue::insert] grows the size past the index. *)
Lemma insert_method_bounds (c : CValue) (n : float) (v : Value) :
  CV.is_array_like c = true ->
  ((exists e, snd (call_method (VCollection c) "insert" [VNumber n; v]) = Err e)
   <-> (size c < f64_as_usize n)%N)
  /\ (f64_as_usize n = size c ->
      call_method (VCollection c) "insert" [VNumber n; v]
      = (VCollection (CV.insert c (Index (size c)) v), Ok VNil)
      /\ size (CV.insert c (Index (size c)) v) = usize_succ (size c)).
Proof.
  intros Ha. simpl. rewrite Ha. simpl. split.
  - destruct (N.ltb_spec (size c) (f64_as_usize n)); simpl.
    + split; [lia | eauto].
    + split; [intros [e He]; discriminate | lia].
  - intros Hi. rewrite Hi, N.ltb_irrefl. split; [done|].
    unfold CV.insert. simpl. by rewrite N.leb_refl.
Qed.

Lemma raw_insert_grows (c : CValue) (i : N) (v : Value) :
  (size c <= i)%N -> size (CV.insert c (Index i) v) = usize_succ i.
Proof.
  intros H. unfold CV.insert. simpl.
  destruct (N.leb_spec (size c) i); [done | lia].
Qed.

(** C6: at [i = usize::MAX], [*i + 1] overflows: the size does not become
    [i + 1] (it wraps to 0 in a release build). The index [1e20] of the
    [insert] method saturates to [usize::MAX] and is not bounds-checked
    on a collection that is not array-like. *)
Lemma insert_at_usize_max_overflows :
  size (CV.insert CV.new (Index usize_max) (VNumber 2%float)) = 0%N
  /\ call_method (VCollection (mkCValue [(KString "a", VNumber 1%float)] 0))
                 "insert" [VNumber 1e20%float; VNumber 2%float]
     = (VCollection (mkCValue [(KString "a", VNumber 1%float);
                               (Index usize_max, VNumber 2%float)] 0), Ok VNil).
Proof. split; vm_compute; reflexivity. Qed.

(** C5: the keyword table has no entry for [include]. *)
Lemma include_lexes_as_identifier :
  keyword_get "include" keywords = None
  /\ tokenize "include" = [make_token Ident "include"]
  /\ tokenize "include math" = [make_token Ident "include"; make_token Ident "math"].
Proof. repeat split; reflexivity. Qed.

Section ParserProperties.

Variable parse_f64 : string -> float.

(** The tokens that may follow a complete operand of a binary operator:
    a binary operator, or the end of input. *)
Definition stops_at_binop (rest : list Token) : Prop :=
  match rest with
  | [] => True
  | t :: _ => is_binop (token_type t) = true
  end.

(** [ts] is an operand that parses (as a postfix expression) to [A] and
    stops in front of a binary operator or at the end of input, given
    enough fuel. *)
Definition operand (ts : list Token) (A : Expr) : Prop :=
  exists f0, forall (f : nat) (rest : list Token),
    f0 <= f -> stops_at_binop rest ->
    parse_postfix parse_f64 f (ts ++ rest) = Ok (A, rest).

Lemma bin_expr_after_operand (f p : nat) (ts rest : list Token) (A : Expr) :
  parse_postfix parse_f64 f ts = Ok (A, rest) ->
  parse_bin_expr parse_f64 (S f) p ts = bin_loop parse_f64 f p A rest.
Proof. intros H. simpl. by rewrite H. Qed.

Lemma bin_loop_end (f p : nat) (e : Expr) :
  bin_loop parse_f64 (S f) p e [] = Ok (e, []).
Proof. reflexivity. Qed.

Lemma bin_loop_stop (f p : nat) (e : Expr) (t : Token) (r : list Token) :
  is_binop (token_type t) = true -> precedence (token_type t) < p ->
  bin_loop parse_f64 (S f) p e (t :: r) = Ok (e, t :: r).
Proof.
  intros Hb Hp. simpl. rewrite Hb. simpl.
  by destruct (Nat.ltb_spec (precedence (token_type t)) p); [|lia].
Qed.

Lemma bin_loop_take (f p : nat) (e right : Expr) (t : Token) (r rest : list Token) :
  is_binop (token_type t) = true -> p <= precedence (token_type t) ->
  parse_bin_expr parse_f64 f (precedence (token_type t) + 1) r = Ok (right, rest) ->
  bin_loop parse_f64 (S f) p e (t :: r)
  = bin_loop parse_f64 f p (BinaryOp e right (token_type t)) rest.
Proof.
  intros Hb Hp Hr. simpl. rewrite Hb. simpl.
  destruct (Nat.ltb_spec (precedence (token_type t)) p); [lia|].
  by rewrite Hr.
Qed.

Lemma operand_then_end (tc : list Token) (C : Expr) (fc f p : nat) :
  (forall f' rest, fc <= f' -> stops_at_binop rest ->
     parse_postfix parse_f64 f' (tc ++ rest) = Ok (C, rest)) ->
  fc + 2 <= f -> parse_bin_expr parse_f64 f p tc = Ok (C, []).
Proof.
  intros Hc Hf.
  destruct f as [|[|g]]; [lia|lia|].
  rewrite (bin_expr_after_operand _ _ _ []  C).
  - apply bin_loop_end.
  - rewrite <- (app_nil_r tc) at 1. apply Hc; [lia | done].
Qed.

Lemma operand_then_stop (tb tc : list Token) (B : Expr) (t : Token) (fb f p : nat) :
  (forall f' rest, fb <= f' -> stops_at_binop rest ->
     parse_postfix parse_f64 f' (tb ++ rest) = Ok (B, rest)) ->
  is_binop (token_type t) = true -> precedence (token_type t) < p ->
  fb + 2 <= f -> parse_bin_expr parse_f64 f p (tb ++ t :: tc) = Ok (B, t :: tc).
Proof.
  intros Hb Ht Hp Hf.
  destruct f as [|[|g]]; [lia|lia|].
  rewrite (bin_expr_after_operand _ _ _ (t :: tc) B).
  - by apply bin_loop_stop.
  - apply Hb; [lia | exact Ht].
Qed.

(** C7 *)
Theorem bin_expr_assoc_and_tiers :
  (precedence DblEquals = 1 /\ precedence Lt = 1 /\ precedence Gt = 1
   /\ precedence Lte = 1 /\ precedence Gte = 1 /\ precedence Neq = 1
   /\ precedence Add = 2 /\ precedence Sub = 2
   /\ precedence Mul = 3 /\ precedence Div = 3 /\ precedence Mod = 3)
  /\ (forall (ta tb tc : list Token) (A B C : Expr) (t1 t2 : Token),
      is_binop (token_type t1) = true -> is_binop (token_type t2) = true ->
      operand ta A -> operand tb B -> operand tc C ->
      exists f0, forall f, f0 <= f ->
        parse_expr parse_f64 f (ta ++ t1 :: tb ++ t2 :: tc)
        = Ok (if Nat.ltb (precedence (token_type t1)) (precedence (token_type t2))
              then BinaryOp A (BinaryOp B C (token_type t2)) (token_type t1)
              else BinaryOp (BinaryOp A B (token_type t1)) C (token_type t2), [])).
Proof.
  split; [repeat split|].
  intros ta tb tc A B C t1 t2 H1 H2 [fa Ha] [fb Hb] [fc Hc].
  exists (fa + fb + fc + 10). intros f Hf.
  do 3 (destruct f as [|f]; [lia|]).
  change (parse_expr parse_f64 (S (S (S f))) ?ts)
    with (parse_bin_expr parse_f64 (S (S f)) 0 ts).
  rewrite (bin_expr_after_operand _ _ _ (t1 :: tb ++ t2 :: tc) A);
    [|apply Ha; [lia | exact H1]].
  set (p1 := precedence (token_type t1)).
  set (p2 := precedence (token_type t2)).
  destruct (Nat.ltb_spec p1 p2) as [Hlt|Hge].
  - (* the second operator binds tighter: it is taken by the inner call *)
    rewrite (bin_loop_take _ _ _ (BinaryOp B C (token_type t2)) _ _ []);
      [| exact H1 | lia |].
    + destruct f; [lia|]. apply bin_loop_end.
    + destruct f as [|f]; [lia|].
      rewrite (bin_expr_after_operand _ _ _ (t2 :: tc) B);
        [|apply Hb; [lia | exact H2]].
      destruct f as [|f]; [lia|].
      rewrite (bin_loop_take _ _ _ C _ _ []); [| exact H2 | unfold p1 in Hlt; lia |].
      * destruct f; [lia|]. apply bin_loop_end.
      * apply (operand_then_end _ _ fc); [exact Hc | lia].
  - (* same tier or lower tier: the inner call stops before it *)
    rewrite (bin_loop_take _ _ _ B _ _ (t2 :: tc)); [| exact H1 | lia |].
    + destruct f as [|f]; [lia|].
      rewrite (bin_loop_take _ _ _ C _ _ []); [| exact H2 | lia |].
      * destruct f; [lia|]. apply bin_loop_end.
      * apply (operand_then_end _ _ fc); [exact Hc | lia].
    + apply (operand_then_stop _ _ _ _ fb); [exact Hb | exact H2 | unfold p1, p2 in *; lia | lia].
Qed.

(** An identifier is an operand. *)
Lemma ident_operand (x : string) :
  operand [make_token Ident x] (Identifier x).
Proof.
  exists 3. intros f rest Hf Hs.
  do 3 (destruct f as [|f]; [lia|]).
  destruct rest as [|[tt lx] rest]; [reflexivity|].
  simpl in Hs. destruct tt; try discriminate; reflexivity.
Qed.

End ParserProperties.

(** ** Collections, the evaluator, the lexer, the parser, the natives and the driver: further properties *)

Lemma CKey_eqb_spec (a b : CKey) : CKey_eqb a b = true <-> a = b.
Proof.
  destruct a as [i|s|s], b as [j|t|t]; cbn -[CKey_eqb]; split; intros H; try discriminate;
    try (apply N.eqb_eq in H; by subst); try (apply String.eqb_eq in H; by subst);
    inversion H; subst; try apply N.eqb_refl; apply String.eqb_refl.
Qed.

Lemma CKey_eqb_refl (a : CKey) : CKey_eqb a a = true.
Proof. by apply CKey_eqb_spec. Qed.

Lemma entries_get_insert (k k' : CKey) (v : Value) (l : list (CKey * Value)) :
  entries_get k (entries_insert k' v l)
  = if CKey_eqb k k' then Some v else entries_get k l.
Proof.
  induction l as [|[k2 v2] l IH]; cbn -[CKey_eqb].
  - done.
  - destruct (CKey_eqb k' k2) eqn:E2; cbn -[CKey_eqb].
    + apply CKey_eqb_spec in E2 as ->. by destruct (CKey_eqb k k2).
    + rewrite IH. destruct (CKey_eqb k k2) eqn:E1; [|done].
      apply CKey_eqb_spec in E1. subst k2.
      destruct (CKey_eqb k k') eqn:E3; [|done].
      apply CKey_eqb_spec in E3 as ->. by rewrite CKey_eqb_refl in E2.
Qed.

Lemma entries_remove_insert (k : CKey) (v : Value) (l : list (CKey * Value)) :
  entries_remove k (entries_insert k v l) = (Some v, snd (entries_remove k l)).
Proof.
  induction l as [|[k2 v2] l IH]; cbn -[CKey_eqb].
  - by rewrite CKey_eqb_refl.
  - destruct (CKey_eqb k k2) eqn:E; cbn -[CKey_eqb].
    + by rewrite CKey_eqb_refl.
    + rewrite E, IH. by destruct (entries_remove k l).
Qed.

Lemma entries_remove_absent (k : CKey) (l : list (CKey * Value)) :
  entries_get k l = None -> entries_remove k l = (None, l).
Proof.
  induction l as [|[k2 v2] l IH]; cbn -[CKey_eqb]; [done|].
  destruct (CKey_eqb k k2); [discriminate|]. intros H. by rewrite IH.
Qed.

Lemma entries_remove_fst (k : CKey) (l : list (CKey * Value)) :
  fst (entries_remove k l) = entries_get k l.
Proof.
  induction l as [|[k2 v2] l IH]; cbn -[CKey_eqb]; [done|].
  destruct (CKey_eqb k k2); [done|]. destruct (entries_remove k l); exact IH.
Qed.

Lemma entries_insert_keys (k : CKey) (v : Value) (l : list (CKey * Value)) :
  map fst (entries_insert k v l)
  = if existsb (CKey_eqb k) (map fst l) then map fst l else app (map fst l) [k].
Proof.
  induction l as [|[k2 v2] l IH]; cbn -[CKey_eqb]; [done|].
  destruct (CKey_eqb k k2) eqn:E; cbn -[CKey_eqb].
  - apply CKey_eqb_spec in E as ->. done.
  - rewrite IH. by destruct (existsb (CKey_eqb k) (map fst l)).
Qed.



Lemma existsb_CKey_false (k : CKey) (l : list CKey) :
  existsb (CKey_eqb k) l = false -> ~ In k l.
Proof.
  intros H Hin.
  assert (existsb (CKey_eqb k) l = true) by (apply existsb_exists; exists k; split; [done|apply CKey_eqb_refl]).
  congruence.
Qed.

Lemma In_entries_insert (k : CKey) (v : Value) (l : list (CKey * Value)) kv :
  In kv (entries_insert k v l) -> kv = (k, v) \/ In kv l.
Proof.
  induction l as [|[k2 v2] l IH]; cbn -[CKey_eqb].
  - intuition.
  - destruct (CKey_eqb k k2); cbn -[CKey_eqb]; intros [H|H]; auto.
    destruct (IH H); auto.
Qed.

Lemma In_entries_remove (k : CKey) (l : list (CKey * Value)) kv :
  NoDup (map fst l) ->
  In kv (snd (entries_remove k l)) -> In kv l /\ fst kv <> k.
Proof.
  induction l as [|[k2 v2] l IH]; cbn -[CKey_eqb]; [done|].
  intros Hnd. apply NoDup_cons in Hnd as [Hn Hnd].
  destruct (CKey_eqb k k2) eqn:E; cbn -[CKey_eqb].
  - apply CKey_eqb_spec in E as ->. intros Hin. split; [by right|].
    intros Heq. apply Hn. apply list_elem_of_In. rewrite <- Heq. by apply in_map.
  - specialize (IH Hnd).
    destruct (entries_remove k l) as [r t'] eqn:Er. cbn -[CKey_eqb]. intros [H|H].
    + subst kv. split; [by left|]. cbn -[CKey_eqb]. intros ->. by rewrite CKey_eqb_refl in E.
    + destruct (IH H). auto.
Qed.

Lemma entries_remove_nodup (k : CKey) (l : list (CKey * Value)) :
  NoDup (map fst l) -> NoDup (map fst (snd (entries_remove k l))).
Proof.
  induction l as [|[k2 v2] l IH]; cbn -[CKey_eqb]; [done|].
  intros Hnd. pose proof Hnd as Hnd0. apply NoDup_cons in Hnd as [Hn Hnd].
  destruct (CKey_eqb k k2); cbn -[CKey_eqb]; [done|].
  specialize (IH Hnd).
  pose proof (In_entries_remove k l (k2, v2) Hnd) as Hr0.
  destruct (entries_remove k l) as [r t'] eqn:Er. simpl.
  apply NoDup_cons. split.
  - intros Hin. apply list_elem_of_In in Hin. apply in_map_iff in Hin as [[k3 v3] [Hk3 Hin]]. simpl in Hk3; subst k3.
    pose proof (In_entries_remove k l (k2, v3) Hnd) as Hr. rewrite Er in Hr.
    destruct (Hr Hin) as [Hl _]. apply Hn. apply list_elem_of_In.
    apply (in_map fst) in Hl. exact Hl.
  - exact IH.
Qed.

Lemma usize_succ_small (i : N) : (i < usize_max)%N -> usize_succ i = (i + 1)%N.
Proof.
  unfold usize_succ, usize_max. intros H. apply N.mod_small. lia.
Qed.

Lemma entries_get_In (k : CKey) (v : Value) (l : list (CKey * Value)) :
  entries_get k l = Some v -> In (k, v) l.
Proof.
  induction l as [|[k2 v2] l IH]; cbn -[CKey_eqb]; [done|].
  destruct (CKey_eqb k k2) eqn:E.
  - intros [= ->]. apply CKey_eqb_spec in E as ->. by left.
  - intros H. right. auto.
Qed.

Lemma push_is_insert (c : CValue) (v : Value) :
  CV.push c v = CV.insert c (Index (size c)) v.
Proof. unfold CV.push, CV.insert. by rewrite N.leb_refl. Qed.

Lemma wf_insert (c : CValue) (k : CKey) (v : Value) :
  wf_collection c -> match k with Index i => (i < usize_max)%N | _ => True end ->
  wf_collection (CV.insert c k v).
Proof.
  destruct c as [es s]. unfold wf_collection, CV.insert. simpl.
  intros [Hnd Hf] Hk. split.
  - rewrite entries_insert_keys. destruct (existsb (CKey_eqb k) (map fst es)) eqn:E; [done|].
    apply existsb_CKey_false in E.
    apply NoDup_app. split; [done|]. split; [|apply NoDup_singleton].
    intros x Hx Hx'. apply list_elem_of_singleton in Hx'. subst x.
    apply E. by apply list_elem_of_In.
  - assert (Hs : (s <= match k with
                        | Index i => if (s <=? i)%N then usize_succ i else s
                        | _ => s end)%N).
    { destruct k as [i| |]; try lia. destruct (N.leb_spec s i); [|lia].
      rewrite usize_succ_small; [lia|done]. }
    apply List.Forall_forall. intros kv Hin. apply In_entries_insert in Hin as [->|Hin].
    + simpl. destruct k as [i| |]; [|done|done].
      destruct (N.leb_spec s i); [|lia].
      rewrite usize_succ_small; [lia|done].
    + rewrite List.Forall_forall in Hf. specialize (Hf kv Hin).
      destruct (fst kv); [lia|done|done].
Qed.

Lemma wf_pop (c : CValue) : wf_collection c -> wf_collection (fst (CV.pop c)).
Proof.
  destruct c as [es s]. unfold CV.pop. simpl. intros [Hnd Hf].
  destruct (N.eqb_spec s 0); [by split|].
  pose proof (In_entries_remove (Index (s - 1)) es) as Hr.
  pose proof (entries_remove_nodup (Index (s - 1)) es Hnd) as Hn.
  destruct (entries_remove (Index (s - 1)) es) as [r es'] eqn:Er. simpl in *.
  split; [done|].
  apply List.Forall_forall. intros [k w] Hin. destruct (Hr (k, w) Hnd Hin) as [Hin' Hne].
  rewrite List.Forall_forall in Hf. specialize (Hf _ Hin'). simpl in *.
  destruct k as [i| |]; [|done|done].
  assert (i <> s - 1)%N by congruence. lia.
Qed.

Lemma wf_get_beyond (c : CValue) (i : N) :
  wf_collection c -> (size c <= i)%N -> CV.get c (Index i) = None.
Proof.
  intros [_ Hf] Hi. unfold CV.get.
  destruct (entries_get (Index i) (entries c)) as [w|] eqn:E; [|done].
  apply entries_get_In in E. rewrite List.Forall_forall in Hf. specialize (Hf _ E).
  simpl in Hf. lia.
Qed.

(** X1: a collection keeps its two invariants, distinct keys and every index key below its size: the empty collection has them, and insert (of an index key below usize::MAX), push (below usize::MAX) and pop keep them; so no index at or past the size is present. *)
Theorem collection_wf_invariant :
  wf_collection CV.new
  /\ (forall (c : CValue), wf_collection c ->
      (forall (k : CKey) (v : Value),
         match k with Index i => (i < usize_max)%N | _ => True end ->
         wf_collection (CV.insert c k v))
      /\ (forall v : Value, (size c < usize_max)%N -> wf_collection (CV.push c v))
      /\ wf_collection (fst (CV.pop c))
      /\ (forall i : N, (size c <= i)%N -> CV.get c (Index i) = None)).
Proof.
  split; [split; [constructor | constructor]|].
  intros c Hc. split; [|split; [|split]].
  - intros k v Hk. by apply wf_insert.
  - intros v Hs. rewrite push_is_insert. by apply wf_insert.
  - by apply wf_pop.
  - intros i Hi. by apply wf_get_beyond.
Qed.

(** X2: on a collection whose size is below usize::MAX, pushing a value and then popping it gives the value back, and leaves the entries without the slot at the old size and the old size; when that slot was empty, push then pop through [call_method] gives back the very collection. At size usize::MAX the push wraps the size to 0, and the pop that follows returns nothing. *)
Theorem push_then_pop (c : CValue) (v : Value) :
  ((size c < usize_max)%N ->
   CV.pop (CV.push c v)
     = (mkCValue (snd (entries_remove (Index (size c)) (entries c))) (size c), Some v)
   /\ (CV.get c (Index (size c)) = None ->
       call_method (fst (call_method (VCollection c) "push" [v])) "pop" []
       = (VCollection c, Ok v)))
  /\ (size c = usize_max ->
      size (CV.push c v) = 0%N /\ snd (CV.pop (CV.push c v)) = None).
Proof.
  split.
  2:{ intros Hs. assert (H0 : size (CV.push c v) = 0%N).
      { unfold CV.push. simpl. rewrite Hs. unfold usize_succ, usize_max, usize_modulus.
        reflexivity. }
      split; [exact H0|]. unfold CV.pop. by rewrite H0. }
  intros Hs.
  assert (Hp : CV.pop (CV.push c v)
               = (mkCValue (snd (entries_remove (Index (size c)) (entries c))) (size c), Some v)).
  { unfold CV.pop, CV.push. simpl. rewrite usize_succ_small by done.
    destruct (N.eqb_spec (size c + 1) 0); [lia|].
    replace (size c + 1 - 1)%N with (size c) by lia.
    by rewrite entries_remove_insert. }
  split; [exact Hp|].
  intros Hg. simpl. rewrite Hp. simpl.
  unfold CV.get in Hg. rewrite entries_remove_absent by exact Hg.
  by destruct c.
Qed.

(** X3: after a successful [insert(k, v)] on a collection, [get(k)] on the result returns [v] and leaves the collection unchanged. *)
Theorem insert_then_get (c : CValue) (k v r c' : Value) :
  call_method (VCollection c) "insert" [k; v] = (c', Ok r) ->
  call_method c' "get" [k] = (c', Ok v).
Proof.
  destruct k as [n|s|b|d|]; simpl; try discriminate.
  - destruct (CV.is_array_like c && (size c <? f64_as_usize n)%N); [discriminate|].
    intros [= <- _]. simpl. unfold CV.get, CV.insert. simpl.
    by rewrite entries_get_insert, CKey_eqb_refl.
  - intros [= <- _]. simpl. unfold CV.get, CV.insert. simpl.
    by rewrite entries_get_insert, CKey_eqb_refl.
Qed.

(** X4: [got_method v m] is true exactly when some call of method [m] on [v] succeeds. *)
Theorem got_method_iff (v : Value) (m : string) :
  got_method v m = true <-> exists args r, snd (call_method v m args) = Ok r.
Proof.
  destruct v as [n|s|b|c|]; simpl.
  - split; [discriminate|]. intros (args & r & H). discriminate.
  - destruct (String.eqb_spec m "len") as [->|Hne]; simpl.
    + split; [|done]. intros _. by exists [], (VNumber (usize_as_f64 (N.of_nat (String.length s)))).
    + split; [discriminate|]. intros (args & r & H). discriminate.
  - split; [discriminate|]. intros (args & r & H). discriminate.
  - destruct (String.eqb_spec m "push") as [->|H1]; simpl.
    { split; [|done]. intros _. by exists [VNil], VNil. }
    destruct (String.eqb_spec m "pop") as [->|H2]; simpl.
    { split; [|done]. intros _. exists [].
      destruct (CV.pop c) as [c' o]. eauto. }
    destruct (String.eqb_spec m "size") as [->|H3]; simpl.
    { split; [|done]. intros _. by exists [], (VNumber (usize_as_f64 (CV.len c))). }
    destruct (String.eqb_spec m "get") as [->|H4]; simpl.
    { split; [|done]. intros _. exists [VString "k"]. simpl. eauto. }
    destruct (String.eqb_spec m "insert") as [->|H5]; simpl.
    { split; [|done]. intros _. exists [VString "k"; VNil]. simpl. eauto. }
    split; [discriminate|]. intros (args & r & H). discriminate.
  - split; [discriminate|]. intros (args & r & H). discriminate.
Qed.


Section EvalCollections.
Variable frem : float -> float -> float.
Variable show_f64 : float -> string.
Variable REGISTRY_OPTIONAL : list NativeModule.
Local Abbreviation eval := (evaluate frem show_f64 REGISTRY_OPTIONAL).

Lemma eval_all_cons (m : M Value) (ms : list (M Value)) (st st' : Interpreter)
    (vs : list Value) :
  eval_all (m :: ms) st = (st', Ok vs) ->
  exists st1 v vs', m st = (st1, Ok v) /\ eval_all ms st1 = (st', Ok vs') /\ vs = v :: vs'.
Proof.
  simpl. unfold bind. destruct (m st) as [st1 [v|e]]; intros H; [|discriminate].
  destruct (eval_all ms st1) as [st2 [vs'|e]] eqn:E; [|discriminate].
  unfold ret in H. inversion H; subst. eauto 10.
Qed.

(** X5: a collection literal whose entries evaluate to [vs] builds a collection whose size is the number of positional entries and whose index [i] holds the [i]-th positional value (keyed entries take no index). *)
Theorem collection_literal (es : list CEntry) (st st' : Interpreter) (vs : list Value) :
  eval_all (map (fun ce => eval (entry_expr ce)) es) st = (st', Ok vs) ->
  (N.of_nat (length es) < usize_modulus)%N ->
  exists c, eval (Collection es) st = (st', Ok (VCollection c))
    /\ size c = N.of_nat (length (indexed_vals es vs))
    /\ forall i : N, CV.get c (Index i) = nth_error (indexed_vals es vs) (N.to_nat i).
Proof.
  intros Hall Hb. cbn [evaluate]. unfold exec_collection.
  match goal with |- context [?F (map ?f es) CV.new 0%N st] =>
    assert (G : forall es0 c idx acc st0 vs0,
      size c = idx -> idx = N.of_nat (length acc) ->
      (forall i, CV.get c (Index i) = nth_error acc (N.to_nat i)) ->
      (idx + N.of_nat (length es0) < usize_modulus)%N ->
      eval_all (map (fun ce => eval (entry_expr ce)) es0) st0 = (st', Ok vs0) ->
      exists c', F (map f es0) c idx st0 = (st', Ok (VCollection c'))
        /\ size c' = N.of_nat (length (app acc (indexed_vals es0 vs0)))
        /\ forall i, CV.get c' (Index i) = nth_error (app acc (indexed_vals es0 vs0)) (N.to_nat i))
  end.
  { induction es0 as [|ce es0 IH]; intros c idx acc st0 vs0 Hs Hi Hg Hb0 Ha.
    - simpl in Ha. inversion Ha; subst. simpl.
      exists (if (0 <? size c)%N then mkCValue (entries c) (size c) else c).
      rewrite app_nil_r. split; [done|].
      destruct (0 <? size c)%N; simpl; (split; [done|]); intros i; rewrite <- Hg; done.
    - apply eval_all_cons in Ha as (st1 & v & vs' & Hx & Hr & ->).
      simpl in Hb0.
      assert (Hlt : (idx < usize_max)%N) by (clear -Hb0; unfold usize_max; lia).
      destruct ce as [x|k x|n x]; simpl in Hx |- *; unfold bind; rewrite Hx.
      + destruct (IH (CV.insert c (Index idx) v) (usize_succ idx) (app acc [v]) st1 vs')
          as (c' & H1 & H2 & H3).
        * unfold CV.insert. simpl. rewrite Hs, N.leb_refl. done.
        * rewrite usize_succ_small by exact Hlt.
          rewrite length_app. simpl. lia.
        * intros i. unfold CV.get, CV.insert. simpl. rewrite entries_get_insert.
          destruct (N.eqb_spec i idx) as [->|Hne].
          -- rewrite CKey_eqb_refl, Hi, Nat2N.id, nth_error_app2 by lia.
             by rewrite Nat.sub_diag.
          -- replace (CKey_eqb (Index i) (Index idx)) with false
               by (symmetry; by apply N.eqb_neq).
             pose proof (Hg i) as Hgi. unfold CV.get in Hgi. rewrite Hgi. destruct (Nat.lt_ge_cases (N.to_nat i) (length acc)).
             ++ by rewrite nth_error_app1.
             ++ rewrite nth_error_app2 by lia.
                rewrite (proj2 (nth_error_None acc (N.to_nat i))) by lia.
                destruct (N.to_nat i - length acc)%nat eqn:E; [lia|].
                simpl. by destruct n.
        * rewrite usize_succ_small by exact Hlt. lia.
        * exact Hr.
        * exists c'. simpl. rewrite <- app_assoc in H2, H3. simpl in H2, H3. auto.
      + destruct (IH (CV.insert c (KString k) v) idx acc st1 vs') as (c' & H1 & H2 & H3);
          try done; [|lia|].
        * intros i. pose proof (Hg i) as Hgi. unfold CV.get, CV.insert in *. simpl.
          by rewrite entries_get_insert.
        * exists c'. auto.
      + destruct (IH (CV.insert c (KNumber (show_f64 n)) v) idx acc st1 vs')
          as (c' & H1 & H2 & H3); try done; [|lia|].
        * intros i. pose proof (Hg i) as Hgi. unfold CV.get, CV.insert in *. simpl.
          by rewrite entries_get_insert.
        * exists c'. auto. }
  destruct (G es CV.new 0%N [] st vs) as (c & H1 & H2 & H3); try done;
    [intros i; unfold CV.get; simpl; by destruct (N.to_nat i)|].
  exists c. auto.
Qed.

End EvalCollections.


Lemma grows_refl st : grows st st.
Proof. split_and!; auto. Qed.

Lemma grows_trans a b c : grows a b -> grows b c -> grows a c.
Proof. intros (H1 & H2 & H3) (G1 & G2 & G3). split_and!; auto. set_solver. Qed.

Lemma keeps_ret {A} (a : A) : keeps (ret a).
Proof. intros st. apply grows_refl. Qed.

Lemma keeps_fail {A} e : keeps (@fail A e).
Proof. intros st. apply grows_refl. Qed.

Lemma keeps_bind {A B} (m : M A) (k : A -> M B) :
  keeps m -> (forall a, keeps (k a)) -> keeps (bind m k).
Proof.
  intros Hm Hk st. unfold bind. specialize (Hm st).
  destruct (m st) as [st1 [a|e]]; simpl in *; [|done].
  eapply grows_trans; [exact Hm|apply Hk].
Qed.

Lemma keeps_eval_all (ms : list (M Value)) :
  Forall keeps ms -> keeps (eval_all ms).
Proof.
  induction 1; simpl.
  - apply keeps_ret.
  - apply keeps_bind; [done|]. intros. apply keeps_bind; [done|]. intros. apply keeps_ret.
Qed.

Lemma grows_set_vars_insert st x v : grows st (set_vars st (<[x := v]> (vars st))).
Proof.
  split_and!; simpl; auto. intros y. rewrite lookup_insert_is_Some'. auto.
Qed.

Lemma grows_set_vars_alter st x f : grows st (set_vars st (alter f x (vars st))).
Proof.
  split_and!; simpl; auto. intros y. by rewrite lookup_alter_is_Some.
Qed.

Lemma register_funcs_keeps m ns f : is_Some (ns !! f) -> is_Some (register_funcs m ns !! f).
Proof.
  unfold register_funcs. generalize ns. induction (funcs m) as [|nf l IH]; simpl; [done|].
  intros ns' H. apply IH. rewrite lookup_insert_is_Some'. auto.
Qed.

Section EvalGrowth.
Variable frem : float -> float -> float.
Variable show_f64 : float -> string.
Variable REGISTRY_OPTIONAL : list NativeModule.
Local Abbreviation eval := (evaluate frem show_f64 REGISTRY_OPTIONAL).

Lemma keeps_load_module name : keeps (load_module REGISTRY_OPTIONAL name).
Proof.
  intros st. unfold load_module.
  destruct (decide _); [apply grows_refl|].
  destruct (find _ _); simpl; [|apply grows_refl].
  split_and!; simpl; auto using register_funcs_keeps. set_solver.
Qed.

Lemma keeps_exec_block ms : Forall keeps ms -> keeps (exec_block ms).
Proof.
  unfold exec_block. intros H. generalize VNil. induction H; intros last.
  - apply keeps_ret.
  - apply keeps_bind; [done|]. intros a. apply IHForall.
Qed.

Lemma keeps_eval (e : Expr) : keeps (eval e).
Proof.
  induction e using Expr_ind'; simpl.
  - intros st. destruct (vars st !! x); apply grows_refl.
  - apply keeps_ret.
  - apply keeps_ret.
  - unfold exec_call. apply keeps_bind.
    + apply keeps_eval_all. by apply Forall_map.
    + intros vs st. simpl. repeat case_match; apply grows_refl.
  - intros st. unfold exec_var_decl. destruct (vars st !! x); [apply grows_refl|].
    unfold bind. specialize (IHe st). destruct (eval e st) as [st1 [w|err]]; simpl in *; [|done].
    eapply grows_trans; [exact IHe|apply grows_set_vars_insert].
  - intros st. unfold exec_assignment. destruct (vars st !! x); [|apply grows_refl].
    unfold bind. specialize (IHe st). destruct (eval e st) as [st1 [w|err]]; simpl in *; [|done].
    eapply grows_trans; [exact IHe|apply grows_set_vars_alter].
  - unfold exec_binary_op. apply keeps_bind; [done|]. intros a.
    apply keeps_bind; [done|]. intros b.
    repeat case_match; try apply keeps_ret; try apply keeps_fail; intros st; apply grows_refl.
  - unfold exec_unary_op. apply keeps_bind; [done|]. intros a.
    repeat case_match; try apply keeps_ret; apply keeps_fail.
  - apply keeps_exec_block. by apply Forall_map.
  - unfold exec_if. apply keeps_bind; [done|]. intros a.
    destruct (is_truthy a).
    + apply keeps_exec_block. by apply Forall_map.
    + destruct eb; simpl; [|apply keeps_ret]. apply keeps_exec_block. by apply Forall_map.
  - unfold exec_collection.
    match goal with |- keeps (?F ?l CV.new 0%N) =>
      assert (G : forall c idx, keeps (F l c idx)); [|apply G] end.
    induction H as [|ce es Hce Hes IH]; intros c idx; simpl; [apply keeps_ret|].
    destruct ce; simpl in *; apply keeps_bind; [done|intros; apply IH|done|intros; apply IH|done|intros; apply IH].
  - unfold exec_idx_access. apply keeps_bind; [done|]. intros a.
    apply keeps_bind; [done|]. intros b.
    repeat case_match; try apply keeps_ret; apply keeps_fail.
  - unfold exec_method_call. apply keeps_bind.
    + apply keeps_eval_all. by apply Forall_map.
    + intros vs. destruct e; try (apply keeps_bind; [done|]; intros o st; apply grows_refl).
      intros st. destruct (vars st !! name) as [val|]; [|apply grows_refl].
      destruct (call_method val m vs) as [val' [r|err]]; [apply grows_set_vars_insert|apply grows_refl].
  - apply keeps_load_module.
  - unfold exec_fa. apply keeps_bind; [done|]. intros a.
    repeat case_match; try apply keeps_ret; apply keeps_fail.
Qed.

(** X6: evaluating any expression, successfully or not, never removes a variable, a native function or a loaded module from the interpreter. *)
Theorem evaluate_never_forgets (e : Expr) (st : Interpreter) :
  let st' := fst (eval e st) in
  (forall x, is_Some (vars st !! x) -> is_Some (vars st' !! x))
  /\ (forall f, is_Some (natives st !! f) -> is_Some (natives st' !! f))
  /\ loaded_modules st ⊆ loaded_modules st'.
Proof. exact (keeps_eval e st). Qed.

End EvalGrowth.


Lemma append_inj_l (p s t : string) : p +:+ s = p +:+ t -> s = t.
Proof. induction p; simpl; [done|]. intros H. inversion H. auto. Qed.

Lemma register_funcs_lookup (m : NativeModule) (ns : gmap string Native) (f : string) (g : Native) :
  NoDup (map fst (funcs m)) -> In (f, g) (funcs m) ->
  register_funcs m ns !! (mod_name m +:+ "_" +:+ f) = Some g.
Proof.
  unfold register_funcs. generalize ns. induction (funcs m) as [|[f' g'] l IH]; cbn [fold_left map fst snd In]; [done|].
  intros ns' Hnd Hin. apply NoDup_cons in Hnd as [Hn Hnd].
  destruct Hin as [Heq|Hin].
  - inversion Heq; subst f' g'. clear IH.
    assert (Hf : forall acc : gmap string Native, acc !! (mod_name m +:+ "_" +:+ f) = Some g ->
      fold_left (fun (acc : gmap string Native) (nf : string * Native) => <[mod_name m +:+ "_" +:+ fst nf := snd nf]> acc) l acc
        !! (mod_name m +:+ "_" +:+ f) = Some g).
    { clear Hnd. induction l as [|[f2 g2] l IHl]; cbn [fold_left fst snd]; [done|].
      intros acc Ha. cbn [map fst] in Hn. apply IHl.
      - intros Hi. apply Hn. by apply list_elem_of_further.
      - rewrite lookup_insert_ne; [done|]. intros He. apply append_inj_l in He.
        apply append_inj_l in He. subst f2. apply Hn. apply list_elem_of_here. }
    apply Hf. by rewrite lookup_insert_eq.
  - apply IH; done.
Qed.

Section EvalBlocks.
Variable frem : float -> float -> float.
Variable show_f64 : float -> string.
Variable REGISTRY_OPTIONAL : list NativeModule.
Local Abbreviation eval := (evaluate frem show_f64 REGISTRY_OPTIONAL).

Lemma block_go_app (ms1 ms2 : list (M Value)) (last : Value) (st : Interpreter) :
  let go := (fix go (ms : list (M Value)) (last : Value) : M Value :=
     match ms with
     | [] => ret last
     | m :: ms' => let? v := m in go ms' v
     end) in
  go (app ms1 ms2) last st
  = match go ms1 last st with
    | (st1, Ok v) => go ms2 v st1
    | (st1, Err e) => (st1, Err e)
    end.
Proof.
  intros go. revert last st. induction ms1 as [|m ms1 IH]; intros last st; simpl; [done|].
  unfold bind. destruct (m st) as [st1 [v|e]]; [apply IH|done].
Qed.

(** X7: a block of [xs ++ ys] runs [xs] and then, unless [xs] failed, [ys] in the state [xs] left; an error in [xs] stops the block. *)
Theorem block_app (xs ys : list Expr) (st : Interpreter) :
  eval (Block (app xs ys)) st
  = match eval (Block xs) st with
    | (st1, Ok v) => match ys with [] => (st1, Ok v) | _ => eval (Block ys) st1 end
    | (st1, Err e) => (st1, Err e)
    end.
Proof.
  cbn [evaluate]. unfold exec_block. rewrite map_app, block_go_app.
  match goal with |- context [let (_, _) := ?X in _] => destruct X as [st1 [v|e]] end; [|done].
  destruct ys as [|y ys]; [done|]. reflexivity.
Qed.

Lemma lookup_alter_const (m : gmap string Value) (x : string) (w : Value) :
  is_Some (m !! x) -> alter (fun _ => w) x m = <[x := w]> m.
Proof.
  intros [u Hu]. apply map_eq. intros y. destruct (decide (x = y)) as [->|Hne].
  - by rewrite lookup_alter_eq, lookup_insert_eq, Hu.
  - by rewrite lookup_alter_ne, lookup_insert_ne.
Qed.

(** X8: declaring a fresh variable and reading it gives the declared value; an assignment in between makes the read give the assigned value. *)
Theorem var_decl_round_trip (x : string) (e e' : Expr) (st st1 st2 : Interpreter) (v w : Value) :
  vars st !! x = None ->
  eval e st = (st1, Ok v) ->
  eval (Block [VarDecl x e; Identifier x]) st
    = (set_vars st1 (<[x := v]> (vars st1)), Ok v)
  /\ (eval e' (set_vars st1 (<[x := v]> (vars st1))) = (st2, Ok w) ->
      eval (Block [VarDecl x e; Assignment x e'; Identifier x]) st
      = (set_vars st2 (<[x := w]> (vars st2)), Ok w)).
Proof.
  intros Hn He. split.
  - simpl. unfold exec_block, exec_var_decl, bind. rewrite Hn, He. simpl.
    by rewrite lookup_insert_eq.
  - intros He'. simpl. unfold exec_block, exec_var_decl, exec_assignment, bind.
    rewrite Hn, He. simpl. rewrite lookup_insert_eq. rewrite He'.
    destruct (keeps_eval frem show_f64 REGISTRY_OPTIONAL e' (set_vars st1 (<[x:=v]> (vars st1))))
      as [Hk _].
    rewrite He' in Hk. simpl in Hk.
    assert (Hx : is_Some (vars st2 !! x)) by (apply Hk; simpl; rewrite lookup_insert_eq; eauto).
    simpl. rewrite lookup_alter_const by exact Hx. by rewrite lookup_insert_eq.
Qed.

End EvalBlocks.


Lemma opp_opp (x : float) : PrimFloat.opp (PrimFloat.opp x) = x.
Proof.
  apply Prim2SF_inj. rewrite !opp_spec.
  destruct (Prim2SF x); simpl; rewrite ?Bool.negb_involutive; reflexivity.
Qed.

Section EvalOps.
Variable frem : float -> float -> float.
Variable show_f64 : float -> string.
Variable REGISTRY_OPTIONAL : list NativeModule.
Local Abbreviation eval := (evaluate frem show_f64 REGISTRY_OPTIONAL).

(** X9: a comparison of two evaluated operands never fails: it yields a boolean, false for [==] and the orderings (true for [!=]) when the two values have different types, and false for an ordering on nil or collections. *)
Theorem comparison_total (l r : Expr) (op : TokenType) (st st1 st2 : Interpreter) (vl vr : Value) :
  In op [DblEquals; Neq; Lt; Gt; Lte; Gte] ->
  eval l st = (st1, Ok vl) -> eval r st1 = (st2, Ok vr) ->
  exists b, eval (BinaryOp l r op) st = (st2, Ok (VBool b))
    /\ (type_name vl <> type_name vr -> b = match op with Neq => true | _ => false end)
    /\ (match vl with VNil | VCollection _ => True | _ => False end ->
        In op [Lt; Gt; Lte; Gte] -> b = false).
Proof.
  intros Hop Hl Hr. simpl. unfold exec_binary_op, bind. rewrite Hl, Hr.
  assert (Hty : type_name vl <> type_name vr -> value_eqb vl vr = false /\ partial_cmp vl vr = None).
  { destruct vl, vr; repeat match goal with c : CValue |- _ => destruct c end; simpl;
    intros H; try (exfalso; by apply H); done. }
  assert (Hnc : match vl with VNil | VCollection _ => True | _ => False end -> partial_cmp vl vr = None).
  { destruct vl; simpl; done. }
  unfold value_lt, value_gt, value_le, value_ge.
  simpl in Hop; destruct Hop as [<-|[<-|[<-|[<-|[<-|[<-|[]]]]]]]; eexists; (split; [reflexivity|]);
    split; intros H;
    try (destruct (Hty H) as [E1 E2]; rewrite ?E1, ?E2; reflexivity);
    try (intros _; rewrite (Hnc H); reflexivity);
    try (intros Hin; simpl in Hin; intuition discriminate).
Qed.

(** X10: an arithmetic operator (+, -, *, /, %) on an operand that is not a number fails with the error arithmetic operations can only be performed on numbers. *)
Theorem arith_needs_numbers (l r : Expr) (op : TokenType) (st st1 st2 : Interpreter) (vl vr : Value) :
  In op [Add; Sub; Mul; Div; Mod] ->
  eval l st = (st1, Ok vl) -> eval r st1 = (st2, Ok vr) ->
  (forall n, vl <> VNumber n) \/ (forall n, vr <> VNumber n) ->
  eval (BinaryOp l r op) st
    = (st2, Err "arithmetic operations can only be performed on numbers").
Proof.
  intros Hop Hl Hr Hn. simpl. unfold exec_binary_op, bind. rewrite Hl, Hr.
  simpl in Hop; destruct Hop as [<-|[<-|[<-|[<-|[<-|[]]]]]]; destruct vl, vr; try reflexivity;
    destruct Hn as [Hn|Hn]; exfalso; eapply Hn; reflexivity.
Qed.

(** X11: unary minus on a number is its negation, so a double unary minus gives back the number itself; unary minus on a value that is not a number fails with the error negate unary operator only supported on numbers; and a unary operator other than minus fails on every operand and in every state. *)
Theorem unary_needs_number (x : Expr) (st st1 : Interpreter) (v : Value) :
  eval x st = (st1, Ok v) ->
  (forall n, v = VNumber n ->
     eval (UnaryOp x Sub) st = (st1, Ok (VNumber (PrimFloat.opp n)))
     /\ eval (UnaryOp (UnaryOp x Sub) Sub) st = (st1, Ok (VNumber n)))
  /\ ((forall n, v <> VNumber n) ->
      eval (UnaryOp x Sub) st = (st1, Err "negate unary operator only supported on numbers"))
  /\ (forall (op : TokenType) (st0 : Interpreter),
        op <> Sub -> exists st' e, eval (UnaryOp x op) st0 = (st', Err e)).
Proof.
  intros Hx. split_and!.
  - intros n ->. split.
    + simpl. unfold exec_unary_op, bind. by rewrite Hx.
    + simpl. unfold exec_unary_op, bind. rewrite Hx. simpl. by rewrite opp_opp.
  - intros Hn. simpl. unfold exec_unary_op, bind. rewrite Hx.
    destruct v; try reflexivity. exfalso. by eapply Hn.
  - intros op st0 Hop. simpl. unfold exec_unary_op, bind.
    destruct (eval x st0) as [st' [w|e]]; [|by do 2 eexists].
    destruct op; try (exfalso; by apply Hop); by do 2 eexists.
Qed.

(** X12: include does nothing on a loaded module, fails without a state change when it fails, and fails with the error module 'name' not found on a module that is neither loaded nor in the registry; it is idempotent, adds only the module name to the loaded set and no variable, and registers each function [f] of the module under [name_f]. *)
Theorem include_module (name : string) (st : Interpreter) :
  (name ∈ loaded_modules st -> eval (Include name) st = (st, Ok VNil))
  /\ (forall st' e, eval (Include name) st = (st', Err e) ->
        st' = st /\ e = "module '" +:+ name +:+ "' not found")
  /\ (forall st', eval (Include name) st = (st', Ok VNil) ->
        eval (Include name) st' = (st', Ok VNil) /\ vars st' = vars st
        /\ loaded_modules st' = {[ name ]} ∪ loaded_modules st)
  /\ (forall m, name ∉ loaded_modules st ->
        find (fun m => String.eqb (mod_name m) name) REGISTRY_OPTIONAL = Some m ->
        NoDup (map fst (funcs m)) ->
        forall f g, In (f, g) (funcs m) ->
        natives (fst (eval (Include name) st)) !! (name +:+ "_" +:+ f) = Some g)
  /\ (name ∉ loaded_modules st ->
      find (fun m => String.eqb (mod_name m) name) REGISTRY_OPTIONAL = None ->
      eval (Include name) st = (st, Err ("module '" +:+ name +:+ "' not found"))).
Proof.
  simpl. unfold load_module. split_and!.
  - intros H. by rewrite decide_True.
  - intros st' e. destruct (decide _); [done|].
    destruct (find _ _); [done|]. intros H; inversion H; auto.
  - intros st'. destruct (decide _) as [Hin|Hin].
    + intros H; inversion H; subst. rewrite decide_True by done. split_and!; [done|done|]. set_solver.
    + destruct (find _ _); [|done]. intros H; inversion H; subst; simpl.
      rewrite decide_True by set_solver. done.
  - intros m Hn Hf Hnd f g Hin. rewrite decide_False by done. rewrite Hf. simpl.
    apply find_some in Hf as [_ Hname]. apply String.eqb_eq in Hname. subst name.
    by apply register_funcs_lookup.
  - intros Hn Hf. rewrite decide_False by done. by rewrite Hf.
Qed.

(** X13: a call [m::f(args)] is the call of [m_f] when that native exists, and falls back to the call of plain [f] when it does not. *)
Theorem qualified_call (m f : string) (args : list Expr) (st st1 : Interpreter) (vs : list Value) :
  eval_all (map eval args) st = (st1, Ok vs) ->
  (is_Some (natives st !! (m +:+ "_" +:+ f)) ->
     eval (Call (Some m) f args) st = eval (Call None (m +:+ "_" +:+ f) args) st)
  /\ (natives st1 !! (m +:+ "_" +:+ f) = None ->
     eval (Call (Some m) f args) st = eval (Call None f args) st).
Proof.
  intros Ha. cbn [evaluate]. unfold exec_call, bind. rewrite Ha. cbv beta zeta. split.
  - intros Hs.
    assert (Hk : is_Some (natives st1 !! (m +:+ "_" +:+ f))).
    { pose proof (keeps_eval_all (map eval args)) as K.
      assert (Hf : Forall keeps (map eval args)).
      { apply Forall_map, Forall_true. intros x. apply keeps_eval. }
      specialize (K Hf st). rewrite Ha in K. destruct K as (_ & K & _). by apply K. }
    destruct Hk as [g Hg]. case_match eqn:E; [reflexivity|]. exfalso.
    assert (E2 : natives st1 !! (m +:+ "_" +:+ f) = None) by exact E. congruence.
  - intros Hn. case_match eqn:E; [|repeat case_match; reflexivity]. exfalso.
    match type of E with _ = Some ?n =>
      assert (E2 : is_Some (natives st1 !! (m +:+ "_" +:+ f))) by (exists n; exact E) end.
    rewrite Hn in E2. by destruct E2.
Qed.

End EvalOps.


Lemma span_le (p : ascii -> bool) (s : list ascii) : length (snd (span p s)) <= length s.
Proof.
  induction s as [|c s IH]; simpl; [lia|].
  destruct (p c); simpl; [|lia]. destruct (span p s) as [a b] eqn:E. simpl in *. lia.
Qed.

Lemma number_chars_le (s : list ascii) (f : bool) : length (snd (number_chars s f)) <= length s.
Proof.
  revert f. induction s as [|c s IH]; intros f; simpl; [lia|].
  destruct (is_numeric c).
  - specialize (IH f). destruct (number_chars s f) as [a b]. simpl in *. lia.
  - destruct (ceq c "."%char && negb f && _).
    + specialize (IH true). destruct (number_chars s true) as [a b]. simpl in *. lia.
    + simpl. lia.
Qed.

Lemma keyword_lexable (k : string) (t : TokenType) :
  keyword_get k keywords = Some t -> lexable t = true.
Proof. simpl. repeat case_match; intros Hk; inversion Hk; subst; reflexivity. Qed.

Lemma next_progress (s : list ascii) (t : Token) (r : list ascii) :
  next s = Some (t, r) -> length r < length s /\ lexable (token_type t) = true.
Proof.
  induction s as [|c s IH]; [discriminate|]. cbn [next].
  destruct (is_whitespace c).
  { intros H. destruct (IH H). simpl. split; [lia|done]. }
  destruct (is_alphabetic c || ceq c "_"%char) eqn:Ea.
  { unfold process_identifier. intros H.
    pose proof (span_le (fun c => is_alphanumeric c || ceq c "_"%char) s) as Hl.
    cbn [span] in H. unfold is_alphanumeric in H |- *.
    replace (is_alphabetic c || is_numeric c || ceq c "_"%char) with true in H
      by (destruct (is_alphabetic c), (is_numeric c), (ceq c "_"%char); simpl in *; congruence).
    destruct (span _ s) as [a b] eqn:E. simpl in Hl.
    destruct (keyword_get _ keywords) eqn:Ek; inversion H; subst; simpl;
      [split; [lia|]; eapply keyword_lexable; eauto|split; [lia|done]]. }
  destruct (is_numeric c) eqn:En.
  { unfold process_number. intros H. cbn [number_chars] in H. rewrite En in H.
    pose proof (number_chars_le s false) as Hl.
    destruct (number_chars s false) as [a b]. inversion H; subst. simpl in *. split; [lia|done]. }
  destruct (ceq c (Ascii.ascii_of_nat 34) || ceq c "'"%char).
  { unfold process_string. intros H.
    pose proof (span_le (fun d => negb (ceq d c)) s) as Hl.
    destruct (span _ s) as [a b]. simpl in Hl.
    inversion H; subst. simpl. split; [|done].
    destruct b as [|d b]; simpl in *; [lia|]. destruct (ceq d c); simpl; lia. }
  repeat match goal with
  | |- context [if ?b then _ else _] => destruct b
  | |- context [match s with _ => _ end] => destruct s as [|d s']
  end; intros H; try (inversion H; subst; simpl; split; [lia|done]);
  try (destruct (IH H); simpl in *; split; [lia|done]).
Qed.

Lemma tokens_fuel_enough (n m : nat) (s : list ascii) :
  length s < n -> length s < m -> tokens_fuel n s = tokens_fuel m s.
Proof.
  revert m s. induction n as [|n IH]; intros m s Hn Hm; [lia|].
  destruct m as [|m]; [lia|]. simpl.
  destruct (next s) as [[t r]|] eqn:E; [|done].
  apply next_progress in E as [Hr _]. f_equal. apply IH; lia.
Qed.

Lemma tokens_fuel_okts (n : nat) (s : list ascii) : okts (tokens_fuel n s) = true.
Proof.
  revert s. induction n as [|n IH]; intros s; simpl; [done|].
  destruct (next s) as [[t r]|] eqn:E; [|done].
  apply next_progress in E as [_ Ht]. simpl. rewrite Ht. apply IH.
Qed.

(** X14: the lexer never produces left or right bracket token, a dot token, an include keyword token or an Eof token: it has no rule that emits them. *)
Theorem tokenize_lexable (src : string) :
  forallb (fun t => lexable (token_type t)) (tokenize src) = true.
Proof. apply tokens_fuel_okts. Qed.

Lemma next_skip (c : ascii) (s : list ascii) :
  recognized c = false \/ is_whitespace c = true
  \/ (c = "!"%char /\ match s with d :: _ => d <> "="%char | [] => True end) ->
  next (c :: s) = next s.
Proof.
  intros [H|[H|[-> Hd]]].
  - unfold recognized in H.
    repeat match goal with H : _ || _ = false |- _ => apply orb_false_iff in H as [? ?] end.
    cbn [next].
    repeat match goal with H : ?b = false |- context [?b] => rewrite H end.
    reflexivity.
  - cbn [next]. by rewrite H.
  - destruct s as [|d s]; [reflexivity|].
    cbn [next]. destruct (ceq d "="%char) eqn:E; [|reflexivity].
    apply Ascii.eqb_eq in E. congruence.
Qed.

(** X15: on ASCII input, a character the lexer does not recognise, a whitespace character, and a [!] not followed by [=] are dropped without producing a token. *)
Theorem tokenize_skips (c : ascii) (src : string) :
  Ascii.nat_of_ascii c < 128 -> ascii_only src ->
  recognized c = false \/ is_whitespace c = true
  \/ (c = "!"%char /\ match src with String d _ => d <> "="%char | EmptyString => True end) ->
  tokenize (String c src) = tokenize src.
Proof.
  intros _ _ H. unfold tokenize. cbn [list_ascii_of_string length].
  set (s := list_ascii_of_string src).
  change (tokens_fuel (S (S (length s))) (c :: s))
    with (match next (c :: s) with
          | Some (tok, rest) => tok :: tokens_fuel (S (length s)) rest
          | None => [] end).
  change (tokens_fuel (S (length s)) s)
    with (match next s with
          | Some (tok, rest) => tok :: tokens_fuel (length s) rest
          | None => [] end).
  rewrite next_skip.
  2:{ destruct H as [H|[H|[H1 H2]]]; auto. right; right. split; [done|]. by destruct src. }
  destruct (next s) as [[t r]|] eqn:E; [|done].
  apply next_progress in E as [Hr _]. f_equal. apply tokens_fuel_enough; lia.
Qed.

Lemma span_quote (q : ascii) (body rest : list ascii) :
  ~ In q body ->
  span (fun d => negb (ceq d q)) (app body (q :: rest)) = (body, q :: rest)
  /\ span (fun d => negb (ceq d q)) body = (body, []).
Proof.
  induction body as [|c body IH]; intros Hn; simpl.
  - unfold ceq. rewrite Ascii.eqb_refl. done.
  - assert (Hc : ceq c q = false).
    { unfold ceq. apply Ascii.eqb_neq. intros ->. apply Hn. by left. }
    rewrite Hc. simpl. destruct IH as [-> ->]; [intros Hi; apply Hn; by right|]. done.
Qed.

(** X16: on ASCII input, a quote, a body without that quote and a closing quote lex to one string token whose lexeme is the body; an unterminated string takes the rest of the input as its body. *)
Theorem string_literal (q : ascii) (body rest : list ascii) :
  q = Ascii.ascii_of_nat 34 \/ q = "'"%char ->
  Forall (fun d => Ascii.nat_of_ascii d < 128) body ->
  Forall (fun d => Ascii.nat_of_ascii d < 128) rest ->
  ~ In q body ->
  next (q :: app body (q :: rest)) = Some (make_token TString (string_of_list_ascii body), rest)
  /\ next (q :: body) = Some (make_token TString (string_of_list_ascii body), []).
Proof.
  intros Hq _ _ Hn. destruct (span_quote q body rest Hn) as [H1 H2].
  assert (Hsel : forall s, next (q :: s) = Some (process_string q s)).
  { intros s. destruct Hq as [->| ->]; reflexivity. }
  rewrite !Hsel. unfold process_string. rewrite H1, H2. simpl.
  unfold ceq. rewrite Ascii.eqb_refl. done.
Qed.

Lemma number_chars_float (s : list ascii) (a b : list ascii) :
  number_chars s true = (a, b) ->
  s = app a b /\ Forall (fun d => is_numeric d = true) a
  /\ match b with d :: _ => is_numeric d = false | [] => True end.
Proof.
  revert a b. induction s as [|c s IH]; intros a b H; simpl in H.
  - inversion H; subst. done.
  - destruct (is_numeric c) eqn:En.
    + destruct (number_chars s true) as [a' b'] eqn:E. injection H as <- <-.
      destruct (IH a' b' eq_refl) as (-> & Hf & Hb). simpl. auto.
    + rewrite andb_false_r, andb_false_l in H. injection H as <- <-. simpl. auto.
Qed.

Lemma number_chars_shape (s : list ascii) (a b : list ascii) :
  number_chars s false = (a, b) ->
  s = app a b
  /\ (exists ds fr, a = app ds fr /\ Forall (fun d => is_numeric d = true) ds
        /\ (fr = [] \/ exists ds2, fr = "."%char :: ds2 /\ ds2 <> []
                                   /\ Forall (fun d => is_numeric d = true) ds2))
  /\ match b with d :: _ => is_numeric d = false | [] => True end.
Proof.
  revert a b. induction s as [|c s IH]; intros a b H; simpl in H.
  - inversion H; subst. split; [done|]. split; [|done]. exists [], []. auto.
  - destruct (is_numeric c) eqn:En.
    + destruct (number_chars s false) as [a' b'] eqn:E. injection H as <- <-.
      destruct (IH a' b' eq_refl) as (-> & (ds & fr & -> & Hds & Hfr) & Hb).
      split; [done|]. split; [|done]. exists (c :: ds), fr. simpl. auto.
    + match type of H with context [if ?x then _ else _] => destruct x eqn:Ed end.
      * destruct (number_chars s true) as [a' b'] eqn:E. injection H as <- <-.
        destruct (number_chars_float s a' b' E) as (-> & Hf & Hb).
        apply andb_true_iff in Ed as [Ed Hd]. apply andb_true_iff in Ed as [Ed _].
        unfold ceq in Ed. apply Ascii.eqb_eq in Ed. subst c.
        split; [done|]. split; [|done]. exists [], ("."%char :: a'). split; [done|].
        split; [done|]. right. exists a'. split_and!; try done.
        intros ->. simpl in Hd. destruct b' as [|d b']; [done|]. simpl in Hb. congruence.
      * inversion H; subst. split; [done|]. split; [|destruct s; simpl; auto].
        exists [], []. auto.
Qed.

Lemma digit_classes (c : ascii) :
  is_numeric c = true ->
  is_whitespace c = false /\ is_alphabetic c = false /\ ceq c "_"%char = false.
Proof.
  destruct c as [[] [] [] [] [] [] [] []]; intros H; try discriminate H; split_and!; reflexivity.
Qed.

(** X17: on ASCII input, a token that starts with a digit is a number token whose lexeme is a prefix of the input made of digits and at most one dot followed by a digit; the input after it does not start with a digit. *)
Theorem number_lexeme (c : ascii) (s : list ascii) (t : Token) (r : list ascii) :
  Forall (fun d => Ascii.nat_of_ascii d < 128) s ->
  is_numeric c = true ->
  next (c :: s) = Some (t, r) ->
  token_type t = TNumber
  /\ c :: s = app (list_ascii_of_string (lexeme t)) r
  /\ (exists ds fr, list_ascii_of_string (lexeme t) = app ds fr /\ ds <> []
        /\ Forall (fun d => is_numeric d = true) ds
        /\ (fr = [] \/ exists ds2, fr = "."%char :: ds2 /\ ds2 <> []
                                   /\ Forall (fun d => is_numeric d = true) ds2))
  /\ match r with d :: _ => is_numeric d = false | [] => True end.
Proof.
  intros _ Hc H.
  assert (Hsel : next (c :: s) = Some (process_number (c :: s))).
  { cbn [next]. destruct (digit_classes c Hc) as (-> & -> & ->). by rewrite Hc. }
  rewrite Hsel in H. unfold process_number in H.
  destruct (number_chars (c :: s) false) as [a b] eqn:E.
  inversion H; subst. simpl. rewrite list_ascii_of_string_of_list_ascii.
  destruct (number_chars_shape _ _ _ E) as (Hs & (ds & fr & -> & Hds & Hfr) & Hb).
  split; [done|]. split; [done|]. split; [|done].
  exists ds, fr. split_and!; try done.
  intros ->. simpl in E. rewrite Hc in E.
  destruct (number_chars s false) as [a' b'] eqn:E'. injection E as Efr _. simpl in Efr.
  subst fr. destruct Hfr as [Hf|(ds2 & Hf & _)]; [discriminate|].
  injection Hf as -> _. discriminate Hc.
Qed.


Section ParserPlain.
Variable pf : string -> float.

Lemma pthen_okr {A B} (p : A -> bool) (q : B -> bool) (r : PResult A)
    (k : A -> list Token -> PResult B) :
  okr p r -> (forall a ts, p a = true -> okts ts = true -> okr q (k a ts)) ->
  okr q (pthen r k).
Proof. destruct r as [[a ts]|e]; simpl; [|done]. intros [H1 H2] Hk. auto. Qed.

Lemma okts_cons t ts : okts (t :: ts) = true -> lexable (token_type t) = true /\ okts ts = true.
Proof. unfold okts. simpl. by rewrite andb_true_iff. Qed.

Lemma consume_okr ts t : okts ts = true -> okr (fun _ => true) (consume ts t).
Proof.
  intros H. unfold consume. destruct (check ts t); [|done].
  destruct ts as [|t' ts]; [done|]. apply okts_cons in H as [_ H]. done.
Qed.

Lemma okts_if (b : bool) ts : okts ts = true -> okts (if b then advance ts else ts) = true.
Proof.
  intros H. destruct b; [|done]. destruct ts as [|t ts]; [done|]. simpl.
  by apply okts_cons in H as [_ H].
Qed.

Lemma forallb_snoc (l : list Expr) (e : Expr) :
  forallb plain l = true -> plain e = true -> forallb plain (app l [e]) = true.
Proof. intros H1 H2. rewrite forallb_app. simpl. by rewrite H1, H2. Qed.

Ltac okt :=
  repeat match goal with
  | |- okr _ (Err _) => exact I
  | |- okr _ out_of_fuel => exact I
  | |- okr _ (pthen (consume _ _) _) =>
      eapply pthen_okr; [apply consume_okr; assumption|intros ? ? ? ?]
  | |- okr _ (pthen (if ?c then _ else _) _) => destruct c
  | |- okr _ (pthen (Ok (_, _)) _) =>
      eapply (pthen_okr (forallb plain)); [split; [reflexivity|assumption]|intros ? ? ? ?]
  | |- okr _ (pthen _ _) => eapply pthen_okr; [eauto|intros ? ? ? ?]
  | |- okr _ (if ?c then _ else _) => destruct c
  | |- okr _ (Ok (_, _)) => split; [|assumption]
  end.

Lemma parser_inv_all (n : nat) : parser_inv pf n.
Proof.
  induction n as [|n IH].
  { split_and!; intros; exact I. }
  destruct IH as (Hexpr & Hbin & Hloop & Hprim & Hpost & Hploop & Hun & Hgr & Hif & Hblk
                  & Hbloop & Hid & Hcall & Hasg & Hdecl & Hargs & Haloop).
  split_and!.
  - intros ts H. cbn [parse_expr]. auto.
  - intros ts prec H. cbn [parse_bin_expr]. okt. auto.
  - intros ts prec left H Hl. cbn [bin_loop]. destruct ts as [|t ts']; [split; done|].
    pose proof (okts_cons _ _ H) as [_ H'].
    destruct (negb _); [split; done|]. destruct (Nat.ltb _ _); [split; done|].
    eapply pthen_okr; [apply Hbin; exact H'|]. intros a ts2 Ha Hts.
    apply Hloop; [done|simpl; by rewrite Hl, Ha].
  - intros ts H. cbn [parse_prim]. destruct ts as [|t ts']; [exact I|].
    pose proof (okts_cons _ _ H) as [Ht _].
    destruct (token_type t) eqn:Et; rewrite ?Et in Ht; try discriminate Ht; try exact I; auto.
    + unfold parse_number. split; [done|]. by apply okts_cons in H as [_ H].
    + unfold parse_string. split; [done|]. by apply okts_cons in H as [_ H].
    + okt. simpl. done.
  - intros ts H. cbn [parse_postfix]. okt. auto.
  - intros ts e H He. cbn [postfix_loop]. destruct ts as [|t ts']; [split; done|].
    pose proof (okts_cons _ _ H) as [Ht _].
    destruct (token_type t) eqn:Et; rewrite ?Et in Ht; try discriminate Ht; split; done.
  - intros ts H. cbn [parse_unary]. destruct ts as [|t ts']; [exact I|].
    apply okts_cons in H as [_ H]. okt. simpl. done.
  - intros ts H. cbn [parse_grouped]. okt. auto.
  - intros ts H. cbn [parse_if]. okt; simpl; rewrite ?andb_true_r;
      repeat match goal with Hb : ?x = true |- context [?x] => rewrite Hb end; done.
  - intros ts H. cbn [parse_block]. okt. auto.
  - intros ts acc H Ha. cbn [block_loop].
    destruct (negb (check ts RBrace) && negb (check ts Eof)).
    + okt. apply Hbloop; [by apply okts_if|by apply forallb_snoc].
    + okt. done.
  - intros ts H. cbn [parse_identifier]. destruct ts as [|t ts']; [exact I|].
    apply okts_cons in H as [_ H]. okt; auto.
  - intros ts m name H. cbn [parse_call]. okt; simpl; done.
  - intros ts name H. cbn [parse_assignment]. okt. simpl. done.
  - intros ts H. cbn [parse_var_decl]. okt. simpl. done.
  - intros ts H. cbn [parse_args]. okt. apply Haloop; [done|simpl; by rewrite andb_true_r].
  - intros ts acc H Ha. cbn [args_loop]. okt; try done. apply Haloop; [done|by apply forallb_snoc].
Qed.

End ParserPlain.

Section ParserPrograms.
Variable pf : string -> float.

Lemma parse_program_okts (n : nat) (ts : list Token) (es : list Expr) :
  okts ts = true -> parse_program pf n ts = Ok es -> forallb plain es = true.
Proof.
  revert ts es. induction n as [|n IH]; intros ts es H Hp; [discriminate|].
  cbn [parse_program] in Hp. destruct (check ts Eof); [by inversion Hp|].
  pose proof (proj1 (parser_inv_all pf n) ts H) as He.
  destruct (parse_expr pf n ts) as [[e ts1]|err]; [|discriminate].
  destruct He as [He Hts1].
  destruct (parse_program pf n _) as [es'|err] eqn:E; [|discriminate].
  inversion Hp; subst. simpl. rewrite He. simpl.
  eapply IH; [|exact E]. by apply okts_if.
Qed.

(** X18: every program the parser returns for the tokens of a source text is plain: it holds no collection literal, index access, method call, include or field access node, since the tokens that start them never come out of the lexer. *)
Theorem source_programs_plain (fuel : nat) (src : string) (es : list Expr) :
  parse_program pf fuel (tokenize src) = Ok es -> forallb plain es = true.
Proof. apply parse_program_okts. apply tokens_fuel_okts. Qed.

End ParserPrograms.


Lemma get_None_length (n : nat) (s : string) : String.get n s = None -> String.length s <= n.
Proof.
  revert s. induction n as [|n IH]; intros [|c s] E; simpl in *; try discriminate; try lia.
  specialize (IH s E). lia.
Qed.

Lemma get_Some_In (n : nat) (s : string) (b : ascii) :
  String.get n s = Some b -> In b (list_ascii_of_string s).
Proof.
  revert s. induction n as [|n IH]; intros [|c s] E; simpl in *; try discriminate.
  - inversion E; subst. by left.
  - right. by apply IH.
Qed.

Lemma ascii_char_boundary (s : string) (i : nat) :
  ascii_only s -> i <= String.length s -> is_char_boundary s i = true.
Proof.
  intros Ha Hi. unfold is_char_boundary. destruct i as [|i]; [done|].
  destruct (String.get (S i) s) as [b|] eqn:E.
  - unfold ascii_only in Ha. rewrite List.Forall_forall in Ha.
    specialize (Ha b (get_Some_In _ _ _ E)).
    apply negb_true_iff, andb_false_iff. left. apply Nat.leb_gt. lia.
  - apply Nat.eqb_eq. apply get_None_length in E. lia.
Qed.

Section StdlibProperties.
Variable show_value : Value -> string.
Variable debug_value : Value -> string.
Variable parse_f64_opt : string -> option float.
Variable fs_write : string -> string -> option string.

(** X19: on an ASCII string, [string::sub] never panics: it returns the error for indices past the end or reversed, and the substring otherwise. *)
Theorem sub_ascii_never_panics (s : string) (start end_ : float) :
  ascii_only s ->
  sub_nfn show_value [VString s; VNumber start; VNumber end_]
  = Returned (let i := f64_as_usize start in
              let j := f64_as_usize end_ in
              if (N.of_nat (String.length s) <? i)%N || (N.of_nat (String.length s) <? j)%N
                 || (j <? i)%N
              then Err "string::sub: invalid indices"
              else Ok (VString (substring (N.to_nat i) (N.to_nat (j - i)) s))).
Proof.
  intros Ha. simpl.
  destruct ((N.of_nat (String.length s) <? f64_as_usize start)%N) eqn:E1; [done|].
  destruct ((N.of_nat (String.length s) <? f64_as_usize end_)%N) eqn:E2; [done|].
  destruct ((f64_as_usize end_ <? f64_as_usize start)%N) eqn:E3; [done|]. simpl.
  apply N.ltb_ge in E1, E2.
  rewrite !ascii_char_boundary by (done || lia). done.
Qed.

(** X20: [string::parse] with no argument, and [io::write_file] with no argument or only one argument, panic instead of returning an error; [io::write_file] on a single argument that is not a string fails with the not a string error. *)
Theorem natives_missing_args_panic (p : string) (v : Value) :
  to_number_nfn show_value parse_f64_opt [] = Panicked
  /\ write_file_nfn debug_value fs_write [] = Panicked
  /\ write_file_nfn debug_value fs_write [VString p] = Panicked
  /\ ((forall s, v <> VString s) ->
      write_file_nfn debug_value fs_write [v] = Returned (Err (debug_value v +:+ " is not a string"))).
Proof.
  split_and!; try reflexivity.
  intros Hv. unfold write_file_nfn. simpl. destruct v; try reflexivity.
  exfalso. by apply (Hv s).
Qed.

End StdlibProperties.

Section MainProperties.
Variable frem : float -> float -> float.
Variable show_f64 : float -> string.
Variable REGISTRY_OPTIONAL : list NativeModule.
Variable show_value : Value -> string.
Local Abbreviation eval := (evaluate frem show_f64 REGISTRY_OPTIONAL).
Local Abbreviation run := (run_exprs frem show_f64 REGISTRY_OPTIONAL show_value).

(** X21: running [xs ++ ys] prints the non-nil results of [xs] and then runs [ys] in the state [xs] left; when [xs] fails, it prints the runtime error last and stops there. *)
Theorem run_exprs_app (xs ys : list Expr) (st : Interpreter) :
  (forall st1 vs, eval_all (map eval xs) st = (st1, Ok vs) ->
     run (app xs ys) st = (fst (run ys st1), app (shown show_value vs) (snd (run ys st1))))
  /\ (forall st1 e, eval_all (map eval xs) st = (st1, Err e) ->
     exists out, run (app xs ys) st = (st1, app out ["runtime error: " +:+ e])).
Proof.
  revert st. induction xs as [|x xs IH]; intros st; split.
  - intros st1 vs H. inversion H; subst. simpl. by destruct (run ys st1).
  - intros st1 e H. discriminate.
  - intros st1 vs H. simpl in H |- *. unfold bind in H.
    destruct (eval x st) as [st2 [v|e]]; [|discriminate].
    destruct (eval_all (map eval xs) st2) as [st3 [vs'|e]] eqn:E; [|discriminate].
    unfold ret in H. inversion H; subst.
    rewrite (proj1 (IH st2) st1 vs' E).
    destruct (run ys st1) as [st4 out]. simpl.
    unfold shown. simpl. destruct (negb (value_eqb v VNil)); reflexivity.
  - intros st1 e H. simpl in H |- *. unfold bind in H.
    destruct (eval x st) as [st2 [v|e']].
    + destruct (eval_all (map eval xs) st2) as [st3 [vs'|e']] eqn:E; [discriminate|].
      inversion H; subst.
      destruct (proj2 (IH st2) st1 e E) as [out Hout]. rewrite Hout.
      eexists. rewrite app_assoc. reflexivity.
    + inversion H; subst. exists []. reflexivity.
Qed.

End MainProperties.


(* ------------------------------------------------------------------ *)
(** ** Number-keyed entries of collection literals *)

Lemma In_insert_keys (c : CValue) (k k' : CKey) (v : Value) :
  (In k (map fst (entries c)) -> In k (map fst (entries (CV.insert c k' v))))
  /\ In k' (map fst (entries (CV.insert c k' v))).
Proof.
  unfold CV.insert. cbn [entries]. rewrite entries_insert_keys.
  destruct (existsb (CKey_eqb k') (map fst (entries c))) eqn:E.
  - split; [done|]. apply existsb_exists in E as (k2 & Hin & Heq).
    apply CKey_eqb_spec in Heq. by subst.
  - split; intros; apply in_or_app; [by left|]. right. by left.
Qed.

Lemma knumber_not_array_like (c : CValue) (s : string) :
  In (KNumber s) (map fst (entries c)) -> CV.is_array_like c = (0 <? size c)%N.
Proof.
  intros Hin. unfold CV.is_array_like.
  replace (forallb (fun kv => CV.is_index (fst kv)) (entries c)) with false;
    [by rewrite orb_false_r|].
  symmetry. apply not_true_iff_false. intros Hf. rewrite forallb_forall in Hf.
  apply in_map_iff in Hin as ([k w] & Hk & Hin). simpl in Hk. subst k.
  specialize (Hf _ Hin). discriminate.
Qed.

Section NumberKeys.
Variable frem : float -> float -> float.
Variable show_f64 : float -> string.
Variable REGISTRY_OPTIONAL : list NativeModule.
Local Abbreviation eval := (evaluate frem show_f64 REGISTRY_OPTIONAL).

Lemma collection_keys (es : list CEntry) (st st' : Interpreter) (c : CValue) :
  eval (Collection es) st = (st', Ok (VCollection c)) ->
  forall n x, In (NumKeyed n x) es -> In (KNumber (show_f64 n)) (map fst (entries c)).
Proof.
  cbn [evaluate]. unfold exec_collection.
  match goal with |- ?F (map ?f es) CV.new 0%N st = _ -> _ =>
    assert (G : forall es0 c0 idx st0,
      F (map f es0) c0 idx st0 = (st', Ok (VCollection c)) ->
      (forall k, In k (map fst (entries c0)) -> In k (map fst (entries c)))
      /\ (forall n x, In (NumKeyed n x) es0 -> In (KNumber (show_f64 n)) (map fst (entries c))))
  end.
  { induction es0 as [|ce es0 IH]; intros c0 idx st0 H.
    - simpl in H. inversion H; subst. split; [|done].
      intros k Hk. by destruct (0 <? idx)%N.
    - destruct ce as [y|s y|m y]; simpl in H; unfold bind in H;
        destruct (eval y st0) as [st1 [w|e]]; try discriminate;
        destruct (IH _ _ _ H) as [H1 H2]; split.
      + intros k Hk. apply H1. by apply (proj1 (In_insert_keys _ _ _ _)).
      + intros n x [Hx|Hx]; [discriminate|exact (H2 n x Hx)].
      + intros k Hk. apply H1. by apply (proj1 (In_insert_keys _ _ _ _)).
      + intros n x [Hx|Hx]; [discriminate|exact (H2 n x Hx)].
      + intros k Hk. apply H1. by apply (proj1 (In_insert_keys _ _ _ _)).
      + intros n x [Hx|Hx]; [|exact (H2 n x Hx)]. injection Hx as -> ->.
        apply H1. apply (proj2 (In_insert_keys _ (Index 0) _ _)). }
  intros H. exact (proj2 (G es CV.new 0%N st H)).
Qed.

Lemma numkeyed_literal_general (es : list CEntry) (st st' : Interpreter) (c : CValue)
    (n : float) (x : Expr) :
  eval (Collection es) st = (st', Ok (VCollection c)) -> In (NumKeyed n x) es ->
  In (KNumber (show_f64 n)) (map fst (entries c))
  /\ (forall k : float,
        eval (IndexAccess (Collection es) (Number k)) st
        = (st', Ok (match entries_get (Index (f64_as_usize k))
                            (filter (fun kv => negb (is_knumber (fst kv))) (entries c)) with
                    | Some w => w | None => VNil end)))
  /\ (forall k : float,
        eval (MethodCall (Collection es) "get" [Number k]) st
        = (st', Ok (match entries_get (Index (f64_as_usize k))
                            (filter (fun kv => negb (is_knumber (fst kv))) (entries c)) with
                    | Some w => w | None => VNil end)))
  /\ eval (MethodCall (Collection es) "size" []) st
     = (st', Ok (VNumber (usize_as_f64
                  (if (0 <? size c)%N then size c else N.of_nat (length (entries c)))))).
Proof.
  intros Hc Hin. pose proof (collection_keys es st st' c Hc n x Hin) as Hk.
  split; [exact Hk|split; [|split]].
  - intros k.
    change (eval (IndexAccess (Collection es) (Number k)) st)
      with (exec_idx_access (eval (Collection es)) (eval (Number k)) st).
    unfold exec_idx_access, bind. rewrite Hc. simpl. unfold CV.get.
    by rewrite <- entries_get_index_skips_number.
  - intros k.
    change (eval (MethodCall (Collection es) "get" [Number k]) st)
      with (exec_method_call (Collection es) (eval (Collection es)) "get" [eval (Number k)] st).
    remember (eval (Collection es)) as ec eqn:Hec.
    unfold exec_method_call, bind. simpl. subst ec.
    destruct es; [destruct Hin|]; rewrite Hc; simpl; unfold CV.get;
      by rewrite <- entries_get_index_skips_number.
  - change (eval (MethodCall (Collection es) "size" []) st)
      with (exec_method_call (Collection es) (eval (Collection es)) "size" [] st).
    remember (eval (Collection es)) as ec eqn:Hec.
    unfold exec_method_call, bind. simpl. subst ec.
    destruct es; [destruct Hin|]; rewrite Hc; simpl. unfold CV.len.
    by rewrite (knumber_not_array_like c (show_f64 n) Hk).
Qed.
(** C9: a number-keyed entry [n = x] of a collection literal is stored
    under the key [KNumber (show_f64 n)], while [c[k]] and [c.get(k)] look
    up [Index k]: their result is the lookup among the entries that are not
    number-keyed, so the number-keyed entry is never returned (the literal
    [[n = x]] gives nil); [size()] of a literal with such an entry is its
    size when positive and otherwise its number of entries, since such a
    collection is array-like only through a positive size. *)
Lemma number_keyed_entry_unreachable :
  (forall (es : list (CKey * Value)) (i : N),
     entries_get (Index i) es
     = entries_get (Index i) (filter (fun kv => negb (is_knumber (fst kv))) es))
  /\ (forall (n : float) (x : Expr) (st st' : Interpreter) (v : Value),
       eval x st = (st', Ok v) ->
       eval (Collection [NumKeyed n x]) st
         = (st', Ok (VCollection (mkCValue [(KNumber (show_f64 n), v)] 0)))
       /\ (forall k : float,
             eval (IndexAccess (Collection [NumKeyed n x]) (Number k)) st
             = (st', Ok VNil))
       /\ (forall k : float,
             eval (MethodCall (Collection [NumKeyed n x]) "get" [Number k]) st
             = (st', Ok VNil))
       /\ eval (MethodCall (Collection [NumKeyed n x]) "size" []) st
           = (st', Ok (VNumber 1%float)))
  /\ (forall c : CValue, CV.is_array_like c = true -> CV.len c = size c)
  /\ (forall (es : list CEntry) (st st' : Interpreter) (c : CValue) (n : float) (x : Expr),
       eval (Collection es) st = (st', Ok (VCollection c)) -> In (NumKeyed n x) es ->
       In (KNumber (show_f64 n)) (map fst (entries c))
       /\ (forall k : float,
             eval (IndexAccess (Collection es) (Number k)) st
             = (st', Ok (match entries_get (Index (f64_as_usize k))
                                 (filter (fun kv => negb (is_knumber (fst kv))) (entries c)) with
                         | Some w => w | None => VNil end)))
       /\ (forall k : float,
             eval (MethodCall (Collection es) "get" [Number k]) st
             = (st', Ok (match entries_get (Index (f64_as_usize k))
                                 (filter (fun kv => negb (is_knumber (fst kv))) (entries c)) with
                         | Some w => w | None => VNil end)))
       /\ eval (MethodCall (Collection es) "size" []) st
          = (st', Ok (VNumber (usize_as_f64
                       (if (0 <? size c)%N then size c
                        else N.of_nat (length (entries c))))))).
Proof.
  split; [|split; [|split]].
  - apply entries_get_index_skips_number.
  - intros n x st st' v Hx.
    assert (Hc : eval (Collection [NumKeyed n x]) st
                 = (st', Ok (VCollection (mkCValue [(KNumber (show_f64 n), v)] 0)))).
    { simpl. unfold exec_collection, bind. rewrite Hx. reflexivity. }
    split; [exact Hc|split; [|split]].
    + intros k.
      change (eval (IndexAccess (Collection [NumKeyed n x]) (Number k)) st)
        with (exec_idx_access (eval (Collection [NumKeyed n x])) (eval (Number k)) st).
      unfold exec_idx_access, bind. rewrite Hc. reflexivity.
    + intros k.
      change (eval (MethodCall (Collection [NumKeyed n x]) "get" [Number k]) st)
        with (exec_method_call (Collection [NumKeyed n x])
                (eval (Collection [NumKeyed n x])) "get" [eval (Number k)] st).
      remember (eval (Collection [NumKeyed n x])) as ec eqn:Hec.
      unfold exec_method_call, bind. simpl. subst ec. rewrite Hc. reflexivity.
    + change (eval (MethodCall (Collection [NumKeyed n x]) "size" []) st)
        with (exec_method_call (Collection [NumKeyed n x])
                (eval (Collection [NumKeyed n x])) "size" [] st).
      remember (eval (Collection [NumKeyed n x])) as ec eqn:Hec.
      unfold exec_method_call, bind. simpl. subst ec. rewrite Hc. reflexivity.
  - intros c H. unfold CV.len. by rewrite H.
  - exact numkeyed_literal_general.
Qed.

End NumberKeys.


(* ------------------------------------------------------------------ *)
(** ** Printed numbers read back *)

Lemma number_chars_digits (ds rest : list ascii) (f : bool) :
  Forall (fun d => is_numeric d = true) ds ->
  number_chars (app ds rest) f
  = let (a, b) := number_chars rest f in (app ds a, b).
Proof.
  induction 1 as [|d ds Hd Hds IH]; simpl; [by destruct (number_chars rest f)|].
  rewrite Hd, IH. by destruct (number_chars rest f).
Qed.

Lemma number_chars_literal (ds fr : list ascii) :
  ds <> [] -> Forall (fun d => is_numeric d = true) ds ->
  (fr = [] \/ exists ds2, fr = "."%char :: ds2 /\ ds2 <> []
                          /\ Forall (fun d => is_numeric d = true) ds2) ->
  number_chars (app ds fr) false = (app ds fr, []).
Proof.
  intros _ Hds Hfr. rewrite number_chars_digits by exact Hds.
  destruct Hfr as [->|(ds2 & -> & Hne & Hds2)]; [done|].
  destruct ds2 as [|d ds2]; [done|].
  inversion Hds2 as [|? ? Hd _]; subst.
  assert (Hin : number_chars ds2 true = (ds2, [])).
  { inversion Hds2 as [|? ? _ Ht]; subst.
    pose proof (number_chars_digits ds2 [] true Ht) as H.
    rewrite app_nil_r in H. rewrite H. simpl. by rewrite app_nil_r. }
  cbn [number_chars]. replace (is_numeric "."%char) with false by reflexivity.
  rewrite Hd, Hin. done.
Qed.

Lemma next_number_literal (ds fr : list ascii) :
  ds <> [] -> Forall (fun d => is_numeric d = true) ds ->
  (fr = [] \/ exists ds2, fr = "."%char :: ds2 /\ ds2 <> []
                          /\ Forall (fun d => is_numeric d = true) ds2) ->
  next (app ds fr) = Some (make_token TNumber (string_of_list_ascii (app ds fr)), []).
Proof.
  intros Hne Hds Hfr. pose proof (number_chars_literal ds fr Hne Hds Hfr) as Hn.
  destruct ds as [|d ds']; [done|]. inversion Hds as [|? ? Hd _]; subst.
  assert (Hsel : next (d :: app ds' fr) = Some (process_number (d :: app ds' fr))).
  { cbn [next]. destruct (digit_classes d Hd) as (-> & -> & ->). by rewrite Hd. }
  simpl app. rewrite Hsel. unfold process_number. simpl app in Hn. by rewrite Hn.
Qed.

Lemma tokenize_display (v : float) (out : string) (sgn : bool) (ds fr : list ascii) :
  display_shape v out sgn ds fr ->
  tokenize out = app (if sgn then [make_token Sub "-"] else [])
                     [make_token TNumber (string_of_list_ascii (app ds fr))].
Proof.
  intros (Hs & Hne & Hds & Hfr & _). unfold tokenize. rewrite Hs.
  pose proof (next_number_literal ds fr Hne Hds Hfr) as Hn.
  destruct sgn; cbn [app length].
  - change (tokens_fuel (S (S (length (app ds fr)))) ("-"%char :: app ds fr))
      with (match next ("-"%char :: app ds fr) with
            | Some (tok, rest) => tok :: tokens_fuel (S (length (app ds fr))) rest
            | None => [] end).
    replace (next ("-"%char :: app ds fr)) with (Some (make_token Sub "-", app ds fr))
      by reflexivity.
    simpl tokens_fuel at 1. rewrite Hn. by destruct (length (app ds fr)).
  - simpl tokens_fuel. rewrite Hn. by destruct (length (app ds fr)).
Qed.

Lemma parse_number_literal (pf : string -> float) (lex : string) (sgn : bool) (fuel : nat) :
  8 <= fuel ->
  parse_program pf fuel (app (if sgn then [make_token Sub "-"] else []) [make_token TNumber lex])
  = Ok [if sgn then UnaryOp (Number (pf lex)) Sub else Number (pf lex)].
Proof.
  intros H. do 8 (destruct fuel as [|fuel]; [lia|]). destruct sgn; reflexivity.
Qed.

Section RoundTrip.
Variable frem : float -> float -> float.
Variable show_f64 : float -> string.
Variable REGISTRY_OPTIONAL : list NativeModule.
Variable parse_f64 : string -> float.
Local Abbreviation eval := (evaluate frem show_f64 REGISTRY_OPTIONAL).

(** C8: for a finite [f64] [v] whose [Display] text [show_f64 v] is an
    optional minus sign, digits and an optional fraction (none for a whole
    number), and whose unsigned part [str::parse] reads back as the
    magnitude of [v], the lexer turns that text into an optional [-] token
    and one number token (whose lexeme is just the digits for a whole
    number), the parser makes it one expression, and evaluating that
    expression gives [Number v] again. *)
Theorem number_display_round_trip (v : float) (sgn : bool) (ds fr : list ascii) :
  PrimFloat.is_finite v = true ->
  display_shape v (show_f64 v) sgn ds fr ->
  parse_f64 (string_of_list_ascii (app ds fr)) = (if sgn then PrimFloat.opp v else v) ->
  tokenize (show_f64 v)
    = app (if sgn then [make_token Sub "-"] else [])
          [make_token TNumber (string_of_list_ascii (app ds fr))]
  /\ (is_whole v = true ->
      tokenize (show_f64 v)
      = app (if sgn then [make_token Sub "-"] else []) [make_token TNumber (string_of_list_ascii ds)])
  /\ (forall fuel, 8 <= fuel ->
      exists e, parse_program parse_f64 fuel (tokenize (show_f64 v)) = Ok [e]
        /\ forall st, eval e st = (st, Ok (VNumber v))).
Proof.
  intros _ Hd Hp. pose proof (tokenize_display _ _ _ _ _ Hd) as Ht.
  split; [exact Ht|split].
  - intros Hw. destruct Hd as (_ & _ & _ & _ & Hf). rewrite (Hf Hw), app_nil_r in Ht. exact Ht.
  - intros fuel Hf. rewrite Ht, parse_number_literal by exact Hf.
    eexists. split; [reflexivity|]. intros st. rewrite Hp.
    destruct sgn; simpl; [|reflexivity].
    unfold exec_unary_op, bind. simpl. by rewrite opp_opp.
Qed.
End RoundTrip.


(* ------------------------------------------------------------------ *)
(** ** The properties on concrete programs *)

Definition frem_w (a _ : float) : float := a.
Definition show_w (_ : float) : string := "n".
Definition parse_w (_ : string) : float := 1%float.

Abbreviation eval_w := (evaluate frem_w show_w []).

(** A state where [x] holds the collection [[1]]. *)
Definition st_w : Interpreter :=
  mkInterpreter ∅ {[ "x" := VCollection (mkCValue [(Index 0, VNumber 1%float)] 1) ]} ∅.

Lemma var_decl_assign_fail_atomic_witness :
  eval_w (VarDecl "x" (Number 2%float)) st_w
    = (st_w, Err "variable 'x' already defined!")
  /\ eval_w (Assignment "y" (Number 2%float)) st_w
    = (st_w, Err "variable 'y' not defined!").
Proof.
  split.
  - apply (proj1 (var_decl_assign_fail_atomic frem_w show_w [] st_w "x"
                    (Number 2%float))).
    exists (VCollection (mkCValue [(Index 0, VNumber 1%float)] 1)). reflexivity.
  - apply (proj2 (var_decl_assign_fail_atomic frem_w show_w [] st_w "y"
                    (Number 2%float))).
    reflexivity.
Defined.

Lemma if_truthiness_witness :
  eval_w (If (Collection []) [EString "a"] None) st_w = (st_w, Ok VNil)
  /\ eval_w (If (Identifier "x") [EString "a"] (Some [EString "b"])) st_w
     = (st_w, Ok (VString "a")).
Proof.
  split.
  - apply (proj1 (proj2 (if_truthiness frem_w show_w []))
             (Collection []) [EString "a"] st_w st_w (VCollection (mkCValue [] 0)));
      reflexivity.
  - rewrite (proj1 (proj2 (proj2 (proj2 (proj2 (proj2 (if_truthiness frem_w show_w []))))))
               (Identifier "x") [EString "a"] (Some [EString "b"]) st_w st_w
               (VCollection (mkCValue [(Index 0, VNumber 1%float)] 1)) eq_refl).
    reflexivity.
Defined.

Lemma index_nil_field_error_witness :
  eval_w (IndexAccess (Identifier "x") (Number 5%float)) st_w = (st_w, Ok VNil)
  /\ eval_w (FieldAccess (Identifier "x") "name") st_w
     = (st_w, Err "undefined field 'name'").
Proof.
  destruct (index_nil_field_error frem_w show_w [] (Identifier "x")
              (Number 5%float) (mkCValue [(Index 0, VNumber 1%float)] 1)
              st_w st_w st_w) as [Hn [_ Hf]]; [reflexivity|].
  split; [apply (Hn 5%float) | apply Hf]; reflexivity.
Defined.

Lemma arith_zero_divisor_witness :
  eval_w (BinaryOp (Number 7%float) (Number 0%float) Div) st_w
    = (st_w, Err "division by zero")
  /\ eval_w (BinaryOp (Number 7%float) (Number (-0)%float) Mod) st_w
    = (st_w, Err "modulo by zero").
Proof.
  split.
  - rewrite (proj1 (arith_zero_divisor frem_w show_w [] (Number 7%float)
                      (Number 0%float) 7%float 0%float st_w st_w st_w eq_refl eq_refl)).
    reflexivity.
  - rewrite (proj1 (proj2 (arith_zero_divisor frem_w show_w [] (Number 7%float)
                      (Number (-0)%float) 7%float (-0)%float st_w st_w st_w
                      eq_refl eq_refl))).
    reflexivity.
Defined.

Lemma method_call_write_back_witness :
  eval_w (MethodCall (Identifier "x") "push" [Number 4%float]) st_w
    = (set_vars st_w (<[ "x" := VCollection (mkCValue [(Index 0, VNumber 1%float);
                                                       (Index 1, VNumber 4%float)] 2) ]>
                        (vars st_w)), Ok VNil)
  /\ eval_w (MethodCall (Collection [Indexed (Number 1%float)]) "push" [Number 4%float]) st_w
    = (st_w, Ok VNil).
Proof.
  split.
  - rewrite (proj1 (method_call_write_back frem_w show_w [] (Identifier "x") "push"
                      [Number 4%float] st_w st_w [VNumber 4%float] eq_refl)
               "x" (VCollection (mkCValue [(Index 0, VNumber 1%float)] 1)) eq_refl eq_refl).
    reflexivity.
  - rewrite (proj2 (method_call_write_back frem_w show_w []
                      (Collection [Indexed (Number 1%float)]) "push"
                      [Number 4%float] st_w st_w [VNumber 4%float] eq_refl)
               ltac:(discriminate) st_w
               (VCollection (mkCValue [(Index 0, VNumber 1%float)] 1)) eq_refl).
    reflexivity.
Defined.

Lemma number_keyed_entry_unreachable_witness :
  eval_w (IndexAccess (Collection [NumKeyed 1%float (EString "first")]) (Number 1%float)) st_w
    = (st_w, Ok VNil)
  /\ eval_w (IndexAccess (Collection [Indexed (EString "zero"); NumKeyed 1%float (EString "first")])
              (Number 1%float)) st_w
     = (st_w, Ok VNil)
  /\ eval_w (MethodCall (Collection [Indexed (EString "zero"); NumKeyed 1%float (EString "first")])
              "size" []) st_w
     = (st_w, Ok (VNumber 1%float)).
Proof.
  split; [|split].
  - apply (proj1 (proj2 (proj1 (proj2 (number_keyed_entry_unreachable frem_w show_w []))
                          1%float (EString "first") st_w st_w (VString "first") eq_refl))).
  - rewrite (proj1 (proj2 (proj2 (proj2 (proj2 (number_keyed_entry_unreachable frem_w show_w [])))
               [Indexed (EString "zero"); NumKeyed 1%float (EString "first")] st_w st_w
               (mkCValue [(Index 0, VString "zero"); (KNumber "n", VString "first")] 1)
               1%float (EString "first") eq_refl (or_intror (or_introl eq_refl))))).
    reflexivity.
  - rewrite (proj2 (proj2 (proj2 (proj2 (proj2 (proj2 (number_keyed_entry_unreachable frem_w show_w [])))
               [Indexed (EString "zero"); NumKeyed 1%float (EString "first")] st_w st_w
               (mkCValue [(Index 0, VString "zero"); (KNumber "n", VString "first")] 1)
               1%float (EString "first") eq_refl (or_intror (or_introl eq_refl)))))).
    reflexivity.
Defined.

Lemma bin_expr_assoc_and_tiers_witness :
  (exists f0, forall f, f0 <= f ->
     parse_expr parse_w f (tokenize "a - b - c")
     = Ok (BinaryOp (BinaryOp (Identifier "a") (Identifier "b") Sub) (Identifier "c") Sub, []))
  /\ (exists f0, forall f, f0 <= f ->
     parse_expr parse_w f (tokenize "a + b * c")
     = Ok (BinaryOp (Identifier "a") (BinaryOp (Identifier "b") (Identifier "c") Mul) Add, [])).
Proof.
  split.
  - exact (proj2 (bin_expr_assoc_and_tiers parse_w)
             [make_token Ident "a"] [make_token Ident "b"] [make_token Ident "c"]
             _ _ _ (make_token Sub "-") (make_token Sub "-") eq_refl eq_refl
             (ident_operand parse_w "a") (ident_operand parse_w "b")
             (ident_operand parse_w "c")).
  - exact (proj2 (bin_expr_assoc_and_tiers parse_w)
             [make_token Ident "a"] [make_token Ident "b"] [make_token Ident "c"]
             _ _ _ (make_token Add "+") (make_token Mul "*") eq_refl eq_refl
             (ident_operand parse_w "a") (ident_operand parse_w "b")
             (ident_operand parse_w "c")).
Defined.

(** A native function that returns nil, and a registry holding it as [m::f]. *)
Definition nil_native : Native := fun _ => Ok VNil.
Definition registry_w : list NativeModule := [mkModule "m" [("f", nil_native)]].
Definition empty_w : Interpreter := mkInterpreter ∅ ∅ ∅.
Definition show_value_w (_ : Value) : string := "v".

Lemma collection_wf_invariant_witness :
  wf_collection (CV.push CV.new (VNumber 1%float)).
Proof.
  apply (proj1 (proj2 (proj2 collection_wf_invariant CV.new (proj1 collection_wf_invariant)))).
  reflexivity.
Defined.

Lemma push_then_pop_witness :
  CV.pop (CV.push CV.new (VNumber 1%float)) = (mkCValue [] 0, Some (VNumber 1%float))
  /\ call_method (fst (call_method (VCollection CV.new) "push" [VNumber 1%float])) "pop" []
     = (VCollection CV.new, Ok (VNumber 1%float))
  /\ snd (CV.pop (CV.push (mkCValue [] usize_max) (VNumber 1%float))) = None.
Proof.
  destruct (proj1 (push_then_pop CV.new (VNumber 1%float))) as [H1 H2]; [reflexivity|].
  split; [exact H1|split; [apply H2; reflexivity|]].
  exact (proj2 (proj2 (push_then_pop (mkCValue [] usize_max) (VNumber 1%float)) eq_refl)).
Defined.

Lemma insert_then_get_witness :
  call_method (VCollection (mkCValue [(KString "k", VNumber 1%float)] 0)) "get" [VString "k"]
  = (VCollection (mkCValue [(KString "k", VNumber 1%float)] 0), Ok (VNumber 1%float)).
Proof.
  apply (insert_then_get CV.new (VString "k") (VNumber 1%float) VNil). reflexivity.
Defined.

Lemma collection_literal_witness :
  exists c,
    eval_w (Collection [Indexed (Number 1%float); Keyed "a" (Number 2%float);
                        Indexed (Number 3%float)]) st_w = (st_w, Ok (VCollection c))
    /\ size c = 2%N
    /\ forall i, CV.get c (Index i) = nth_error [VNumber 1%float; VNumber 3%float] (N.to_nat i).
Proof.
  exact (collection_literal frem_w show_w []
           [Indexed (Number 1%float); Keyed "a" (Number 2%float); Indexed (Number 3%float)]
           st_w st_w [VNumber 1%float; VNumber 2%float; VNumber 3%float] eq_refl eq_refl).
Defined.

Lemma evaluate_never_forgets_witness :
  is_Some (vars (fst (eval_w (Assignment "x" (EString "a")) st_w)) !! "x").
Proof.
  apply (proj1 (evaluate_never_forgets frem_w show_w [] (Assignment "x" (EString "a")) st_w)).
  exists (VCollection (mkCValue [(Index 0, VNumber 1%float)] 1)). reflexivity.
Defined.

Lemma var_decl_round_trip_witness :
  eval_w (Block [VarDecl "y" (Number 2%float); Identifier "y"]) st_w
    = (set_vars st_w (<[ "y" := VNumber 2%float ]> (vars st_w)), Ok (VNumber 2%float))
  /\ eval_w (Block [VarDecl "y" (Number 2%float); Assignment "y" (Number 3%float);
                    Identifier "y"]) st_w
    = (set_vars (set_vars st_w (<[ "y" := VNumber 2%float ]> (vars st_w)))
         (<[ "y" := VNumber 3%float ]> (<[ "y" := VNumber 2%float ]> (vars st_w))),
       Ok (VNumber 3%float)).
Proof.
  destruct (var_decl_round_trip frem_w show_w [] "y" (Number 2%float) (Number 3%float)
              st_w st_w (set_vars st_w (<[ "y" := VNumber 2%float ]> (vars st_w)))
              (VNumber 2%float) (VNumber 3%float) eq_refl eq_refl) as [H1 H2].
  split; [exact H1|exact (H2 eq_refl)].
Defined.

Lemma comparison_total_witness :
  exists b, eval_w (BinaryOp (Number 1%float) (EString "1") DblEquals) st_w
              = (st_w, Ok (VBool b)) /\ b = false.
Proof.
  destruct (comparison_total frem_w show_w [] (Number 1%float) (EString "1") DblEquals
              st_w st_w st_w (VNumber 1%float) (VString "1")) as (b & H1 & H2 & _);
    [simpl; auto|reflexivity|reflexivity|].
  exists b. split; [exact H1|apply H2; discriminate].
Defined.

Lemma arith_needs_numbers_witness :
  eval_w (BinaryOp (EString "a") (EString "b") Add) st_w
    = (st_w, Err "arithmetic operations can only be performed on numbers").
Proof.
  apply (arith_needs_numbers frem_w show_w [] (EString "a") (EString "b") Add
           st_w st_w st_w (VString "a") (VString "b"));
    [simpl; auto|reflexivity|reflexivity|left; intros n; discriminate].
Defined.

Lemma unary_needs_number_witness :
  eval_w (UnaryOp (UnaryOp (Number 2%float) Sub) Sub) st_w = (st_w, Ok (VNumber 2%float))
  /\ eval_w (UnaryOp (EString "a") Sub) st_w
     = (st_w, Err "negate unary operator only supported on numbers").
Proof.
  split.
  - exact (proj2 (proj1 (unary_needs_number frem_w show_w [] (Number 2%float) st_w st_w
                           (VNumber 2%float) eq_refl) 2%float eq_refl)).
  - apply (proj1 (proj2 (unary_needs_number frem_w show_w [] (EString "a") st_w st_w
                           (VString "a") eq_refl))).
    intros n. discriminate.
Defined.

Lemma include_module_witness :
  natives (fst (evaluate frem_w show_w registry_w (Include "m") empty_w)) !! "m_f"
    = Some nil_native
  /\ evaluate frem_w show_w registry_w (Include "q") empty_w
     = (empty_w, Err "module 'q' not found").
Proof.
  split.
  - apply (proj1 (proj2 (proj2 (proj2 (include_module frem_w show_w registry_w "m" empty_w))))
             (mkModule "m" [("f", nil_native)])).
    + apply not_elem_of_empty.
    + reflexivity.
    + apply NoDup_singleton.
    + left. reflexivity.
  - apply (proj2 (proj2 (proj2 (proj2 (include_module frem_w show_w registry_w "q" empty_w))))).
    + apply not_elem_of_empty.
    + reflexivity.
Defined.

Lemma qualified_call_witness :
  evaluate frem_w show_w [] (Call (Some "m") "f" []) (mkInterpreter {[ "m_f" := nil_native ]} ∅ ∅)
    = evaluate frem_w show_w [] (Call None "m_f" []) (mkInterpreter {[ "m_f" := nil_native ]} ∅ ∅)
  /\ eval_w (Call (Some "m") "g" []) st_w = eval_w (Call None "g" []) st_w.
Proof.
  split.
  - apply (proj1 (qualified_call frem_w show_w [] "m" "f" []
                    (mkInterpreter {[ "m_f" := nil_native ]} ∅ ∅)
                    (mkInterpreter {[ "m_f" := nil_native ]} ∅ ∅) [] eq_refl)).
    exists nil_native. reflexivity.
  - apply (proj2 (qualified_call frem_w show_w [] "m" "g" [] st_w st_w [] eq_refl)).
    reflexivity.
Defined.

Lemma tokenize_skips_witness :
  tokenize "#x" = tokenize "x" /\ tokenize "!x" = tokenize "x".
Proof.
  assert (Ha : ascii_only "x").
  { unfold ascii_only. cbn. apply List.Forall_cons; [cbv; lia|apply List.Forall_nil]. }
  split; apply tokenize_skips.
  - cbv. lia.
  - exact Ha.
  - left. reflexivity.
  - cbv. lia.
  - exact Ha.
  - right. right. split; [reflexivity|discriminate].
Defined.

Lemma string_literal_witness :
  next (Ascii.ascii_of_nat 34 :: app ["a"%char; "'"%char; "b"%char]
          (Ascii.ascii_of_nat 34 :: [";"%char]))
    = Some (make_token TString "a'b", [";"%char])
  /\ next (Ascii.ascii_of_nat 34 :: ["a"%char; "'"%char; "b"%char])
    = Some (make_token TString "a'b", []).
Proof.
  apply (string_literal (Ascii.ascii_of_nat 34) ["a"%char; "'"%char; "b"%char] [";"%char]).
  - left. reflexivity.
  - repeat (apply List.Forall_cons; [cbv; lia|]). apply List.Forall_nil.
  - repeat (apply List.Forall_cons; [cbv; lia|]). apply List.Forall_nil.
  - cbn. intuition discriminate.
Defined.

Lemma number_lexeme_witness :
  next (list_ascii_of_string "1.5.") = Some (make_token TNumber "1.5", ["."%char])
  /\ exists ds fr, list_ascii_of_string "1.5" = app ds fr /\ ds <> []
       /\ Forall (fun d => is_numeric d = true) ds
       /\ (fr = [] \/ exists ds2, fr = "."%char :: ds2 /\ ds2 <> []
                                  /\ Forall (fun d => is_numeric d = true) ds2).
Proof.
  assert (Hn : next (list_ascii_of_string "1.5.") = Some (make_token TNumber "1.5", ["."%char]))
    by reflexivity.
  split; [exact Hn|].
  assert (Ha : Forall (fun d => Ascii.nat_of_ascii d < 128) (list_ascii_of_string ".5.")).
  { cbn. repeat (apply List.Forall_cons; [cbv; lia|]). apply List.Forall_nil. }
  exact (proj1 (proj2 (proj2 (number_lexeme "1"%char (list_ascii_of_string ".5.")
                                 (make_token TNumber "1.5") ["."%char] Ha eq_refl Hn)))).
Defined.

Lemma source_programs_plain_witness :
  parse_program parse_w 100 (tokenize "val x = 1; x + 1")
    = Ok [VarDecl "x" (Number 1%float); BinaryOp (Identifier "x") (Number 1%float) Add]
  /\ forallb plain [VarDecl "x" (Number 1%float);
                    BinaryOp (Identifier "x") (Number 1%float) Add] = true.
Proof.
  assert (H : parse_program parse_w 100 (tokenize "val x = 1; x + 1")
              = Ok [VarDecl "x" (Number 1%float); BinaryOp (Identifier "x") (Number 1%float) Add])
    by (vm_compute; reflexivity).
  split; [exact H|exact (source_programs_plain parse_w 100 _ _ H)].
Defined.

Lemma sub_ascii_never_panics_witness :
  sub_nfn show_value_w [VString "hello"; VNumber 1%float; VNumber 3%float]
    = Returned (Ok (VString "el")).
Proof.
  rewrite (sub_ascii_never_panics show_value_w "hello" 1%float 3%float).
  - reflexivity.
  - unfold ascii_only. cbn.
    repeat (apply List.Forall_cons; [cbv; lia|]). apply List.Forall_nil.
Defined.

Lemma natives_missing_args_panic_witness :
  write_file_nfn show_value_w (fun _ _ => None) [VNumber 1%float]
    = Returned (Err ("v" +:+ " is not a string")).
Proof.
  apply (proj2 (proj2 (proj2 (natives_missing_args_panic show_value_w show_value_w
                                (fun _ => None) (fun _ _ => None) "p" (VNumber 1%float))))).
  intros s. discriminate.
Defined.

Lemma run_exprs_app_witness :
  run_exprs frem_w show_w [] show_value_w (app [Number 1%float] [Identifier "x"]) st_w
    = (fst (run_exprs frem_w show_w [] show_value_w [Identifier "x"] st_w),
       app (shown show_value_w [VNumber 1%float])
           (snd (run_exprs frem_w show_w [] show_value_w [Identifier "x"] st_w))).
Proof.
  apply (proj1 (run_exprs_app frem_w show_w [] show_value_w [Number 1%float] [Identifier "x"] st_w)).
  reflexivity.
Defined.

Lemma number_display_round_trip_witness :
  tokenize "-5" = [make_token Sub "-"; make_token TNumber "5"]
  /\ exists e, parse_program (fun _ => 5%float) 8 (tokenize "-5") = Ok [e]
     /\ evaluate frem_w (fun _ => "-5") [] e st_w = (st_w, Ok (VNumber (-5)%float)).
Proof.
  destruct (number_display_round_trip frem_w (fun _ => "-5") [] (fun _ => 5%float)
              (-5)%float true ["5"%char] []) as (H1 & _ & H3).
  - reflexivity.
  - split_and!; try reflexivity; try discriminate.
    + repeat constructor.
    + by left.
  - reflexivity.
  - split; [exact H1|]. destruct (H3 8 (le_n 8)) as (e & He & Hv). exists e. split; [exact He|apply Hv].
Defined.
